(** * Trading journal: risk:reward, analytics histogram, trade-history filter and sort

    Shallow embedding of the pure computations of the trading-journal pages:
    - [calculateRiskReward] and the [risk_reward_ratio] stored by [onSubmit]
      (TradeJournal page),
    - [handleRiskPercentageChange] (Settings page),
    - the risk:reward histogram [riskRewardRanges] (Analytics page),
    - [filteredTrades] and [sortedTrades] (TradeHistory page).

    JavaScript numbers are modelled as exact rationals [Q]; a numeric form
    value that is [undefined] or [NaN] is [None].  Strings are Stdlib
    [string]s (ASCII). *)

From Stdlib Require Import QArith Qround Qabs ZArith String List Bool Lia.
From Stdlib Require Import Sorting.Sorted Permutation OrdersEx Lqa.
Import ListNotations.

Open Scope Q_scope.

(** ** JavaScript helpers *)

(** [x < y] on numbers. *)
Definition Qltb (x y : Q) : bool := negb (Qle_bool y x).

(** Truthiness of a numeric form value: [undefined], [NaN] and [0] are falsy. *)
Definition js_truthy (x : option Q) : bool :=
  match x with
  | Some q => negb (Qeq_bool q 0)
  | None => false
  end.

(** The string produced by [Number.prototype.toFixed(2)]: a sign and the
    number of hundredths, i.e. the text ["-"? d...d "." d d]. *)
Record FixedStr := mkFixed { fx_neg : bool; fx_hundredths : N }.

(** [x.toFixed(2)]: if [x < 0] the sign is emitted and [-x] is formatted;
    [n] is the integer for which [n / 100 - x] is closest to zero, the
    larger one on a tie. *)
Definition toFixed2 (x : Q) : FixedStr :=
  if Qltb x 0
  then mkFixed true (Z.to_N (Qfloor (- x * 100 + (1 # 2))))
  else mkFixed false (Z.to_N (Qfloor (x * 100 + (1 # 2)))).

(** [parseFloat] of a [toFixed(2)] string. *)
Definition parseFloat_fixed (f : FixedStr) : Q :=
  let m := inject_Z (Z.of_N (fx_hundredths f)) / 100 in
  if fx_neg f then - m else m.

(** ** Data model *)

Inductive TradeType := Buy | Sell.

Definition TradeType_str (t : TradeType) : string :=
  match t with Buy => "Buy" | Sell => "Sell" end.

Record Trade := mkTrade {
  id : string;
  pair : string;
  timeframe : string;
  type : TradeType;
  entry_price : Q;
  exit_price : option Q;
  stop_loss : Q;
  take_profit : Q;
  entry_date : string;
  exit_date : option string;
  profit_loss : option Q;
  risk_reward_ratio : Q;
  notes : option string
}.

(** ** TradeJournal: [calculateRiskReward] *)

(** The values the form watches: [watch('stop_loss')], [watch('take_profit')],
    [watch('entry_price')] (registered with [valueAsNumber]) and
    [watch('type')]. *)
Record FormWatch := mkWatch {
  stopLoss : option Q;
  takeProfit : option Q;
  entryPrice : option Q;
  tradeType : TradeType
}.

(** The function returns either the number [0] or the string
    [(reward / risk).toFixed(2)]. *)
Inductive RRValue :=
| RRNum (q : Q)
| RRStr (f : FixedStr).

Definition calculateRiskReward (w : FormWatch) : RRValue :=
  if negb (js_truthy (stopLoss w)) || negb (js_truthy (takeProfit w))
     || negb (js_truthy (entryPrice w))
  then RRNum 0
  else
    match stopLoss w, takeProfit w, entryPrice w with
    | Some sl, Some tp, Some ep =>
        let '(risk, reward) :=
          match tradeType w with
          | Buy => (ep - sl, tp - ep)
          | Sell => (sl - ep, ep - tp)
          end in
        if Qle_bool risk 0 then RRNum 0
        else RRStr (toFixed2 (reward / risk))
    | _, _, _ => RRNum 0
    end.

(** [parseFloat(calculateRiskReward())]. *)
Definition parseFloat_rr (r : RRValue) : Q :=
  match r with
  | RRNum q => q
  | RRStr f => parseFloat_fixed f
  end.

(** The [risk_reward_ratio] that [onSubmit] inserts with the trade:
    [data.take_profit && data.stop_loss ? parseFloat(calculateRiskReward()) : 0]. *)
Definition stored_risk_reward (w : FormWatch) : Q :=
  if js_truthy (takeProfit w) && js_truthy (stopLoss w)
  then parseFloat_rr (calculateRiskReward w)
  else 0.

(** ** Settings: [handleRiskPercentageChange] *)

Record SettingsState := mkSettings { riskPercentage : Q }.

Definition default_settings : SettingsState := mkSettings 2.

(** [value] is [parseFloat(e.target.value)]; [None] is [NaN]. *)
Definition handleRiskPercentageChange (value : option Q) (prev : SettingsState)
  : SettingsState :=
  match value with
  | Some v =>
      if Qle_bool (1 # 10) v && Qle_bool v 10
      then mkSettings v
      else prev
  | None => prev
  end.

(** ** Analytics: the risk:reward histogram [riskRewardRanges] *)

(** The five counters, for the labels ["< 1"; "1 - 1.5"; "1.5 - 2"; "2 - 3"; "> 3"]. *)
Definition riskRewardRanges_init : list nat := [0; 0; 0; 0; 0]%nat.

(** [riskRewardRanges[i].count++] *)
Fixpoint incr_at (i : nat) (l : list nat) : list nat :=
  match i, l with
  | O, c :: r => S c :: r
  | S i', c :: r => c :: incr_at i' r
  | _, [] => []
  end.

(** The body of the [forEach] callback. *)
Definition rr_step (counts : list nat) (trade : Trade) : list nat :=
  let rr := risk_reward_ratio trade in
  if Qltb rr 1 then incr_at 0 counts
  else if Qltb rr (3 # 2) then incr_at 1 counts
  else if Qltb rr 2 then incr_at 2 counts
  else if Qltb rr 3 then incr_at 3 counts
  else incr_at 4 counts.

Definition riskRewardRanges (filteredTrades : list Trade) : list nat :=
  fold_left rr_step filteredTrades riskRewardRanges_init.

(** ** TradeHistory: [filteredTrades] *)

(** [String.prototype.toLowerCase] on ASCII text. *)
Definition lower_ascii (c : Ascii.ascii) : Ascii.ascii :=
  let n := Ascii.nat_of_ascii c in
  if (65 <=? n)%nat && (n <=? 90)%nat then Ascii.ascii_of_nat (n + 32) else c.

Fixpoint toLowerCase (s : string) : string :=
  match s with
  | EmptyString => EmptyString
  | String c s' => String (lower_ascii c) (toLowerCase s')
  end.

(** [hay.includes(needle)]: [needle] occurs at some position of [hay]. *)
Fixpoint includes (hay needle : string) : bool :=
  prefix needle hay ||
  match hay with
  | EmptyString => false
  | String _ hay' => includes hay' needle
  end.

(** Truthiness of a string: only [''] is falsy. *)
Definition str_truthy (s : string) : bool := negb (String.eqb s "").

(** [x || 0] for a nullable number. *)
Definition or0 (x : option Q) : Q :=
  match x with
  | Some q => if Qeq_bool q 0 then 0 else q
  | None => 0
  end.

(** The filter state of the page ([searchTerm] is held in a state of its
    own but is used the same way).  [f_type] is [''], ['Buy'] or ['Sell']. *)
Record FilterCriteria := mkCriteria {
  searchTerm : string;
  f_pair : string;
  f_timeframe : string;
  f_type : string;
  dateFrom : string;
  dateTo : string;
  profitOnly : bool;
  lossOnly : bool
}.

Section Filter.

(** [new Date(s)] as a timestamp. *)
Variable date_of : string -> Z.

(** The callback passed to [trades.filter]. *)
Definition filterPred (filters : FilterCriteria) (trade : Trade) : bool :=
  let term := searchTerm filters in
  if str_truthy term
     && negb (includes (toLowerCase (pair trade)) (toLowerCase term))
     && negb (match notes trade with
              | Some n => includes (toLowerCase n) (toLowerCase term)
              | None => false
              end)
  then false
  else if str_truthy (f_pair filters) && negb (String.eqb (pair trade) (f_pair filters))
  then false
  else if str_truthy (f_timeframe filters)
          && negb (String.eqb (timeframe trade) (f_timeframe filters))
  then false
  else if str_truthy (f_type filters)
          && negb (String.eqb (TradeType_str (type trade)) (f_type filters))
  then false
  else if str_truthy (dateFrom filters)
          && (date_of (entry_date trade) <? date_of (dateFrom filters))%Z
  then false
  else if str_truthy (dateTo filters)
          && (date_of (dateTo filters) <? date_of (entry_date trade))%Z
  then false
  else if profitOnly filters && Qle_bool (or0 (profit_loss trade)) 0
  then false
  else if lossOnly filters && Qle_bool 0 (or0 (profit_loss trade))
  then false
  else true.

Definition filteredTrades (filters : FilterCriteria) (trades : list Trade)
  : list Trade :=
  filter (filterPred filters) trades.

(** The criteria of the specification, read as a conjunction. *)
Definition is_substring (needle hay : string) : Prop :=
  exists pre suf, hay = (pre ++ needle ++ suf)%string.

Definition pl_null_as_0 (t : Trade) : Q :=
  match profit_loss t with Some q => q | None => 0 end.

Definition retained_spec (c : FilterCriteria) (t : Trade) : Prop :=
  (searchTerm c = ""%string
   \/ is_substring (toLowerCase (searchTerm c)) (toLowerCase (pair t))
   \/ exists n, notes t = Some n
                /\ is_substring (toLowerCase (searchTerm c)) (toLowerCase n))
  /\ (f_pair c = ""%string \/ pair t = f_pair c)
  /\ (f_timeframe c = ""%string \/ timeframe t = f_timeframe c)
  /\ (f_type c = ""%string \/ TradeType_str (type t) = f_type c)
  /\ (dateFrom c = ""%string \/ (date_of (dateFrom c) <= date_of (entry_date t))%Z)
  /\ (dateTo c = ""%string \/ (date_of (entry_date t) <= date_of (dateTo c))%Z)
  /\ (profitOnly c = false \/ 0 < pl_null_as_0 t)
  /\ (lossOnly c = false \/ pl_null_as_0 t < 0).

End Filter.

(** ** [Array.prototype.sort]

    V8 sorts with TimSort (a binary insertion sort on arrays shorter than
    64), and consults the comparator only through [comparefn(x, y) < 0].
    It is stable: the element being inserted goes after every element it
    is not less than.  We model it as that stable insertion sort, driven by
    the boolean [lt x y := comparefn x y < 0]. *)

Section ArraySort.

Variable A : Type.
Variable lt : A -> A -> bool.

Fixpoint insert_sorted (x : A) (acc : list A) : list A :=
  match acc with
  | [] => [x]
  | y :: r => if lt x y then x :: y :: r else y :: insert_sorted x r
  end.

Fixpoint insertion_sort_from (acc : list A) (l : list A) : list A :=
  match l with
  | [] => acc
  | x :: r => insertion_sort_from (insert_sorted x acc) r
  end.

Definition array_sort (l : list A) : list A := insertion_sort_from [] l.

End ArraySort.

Arguments insert_sorted {A} lt x acc.
Arguments insertion_sort_from {A} lt acc l.
Arguments array_sort {A} lt l.

(** ** TradeHistory: [sortedTrades] and [requestSort] *)

(** A non-null field value: a number or a string. *)
Inductive JsVal :=
| VNum (q : Q)
| VStr (s : string).

(** [x < y] for two values of one field: numeric or code-unit
    lexicographic order.  Mixed operands never arise, since every field
    holds values of one type. *)
Definition js_lt (x y : JsVal) : bool :=
  match x, y with
  | VNum a, VNum b => Qltb a b
  | VStr a, VStr b =>
      match String_as_OT.compare a b with Lt => true | _ => false end
  | _, _ => false
  end.

(** [x === y]. *)
Definition js_eqb (x y : JsVal) : bool :=
  match x, y with
  | VNum a, VNum b => Qeq_bool a b
  | VStr a, VStr b => String.eqb a b
  | _, _ => false
  end.

(** The keys the history table can be sorted by ([keyof Trade]). *)
Inductive TradeKey :=
| K_id | K_pair | K_timeframe | K_type | K_entry_price | K_exit_price
| K_stop_loss | K_take_profit | K_entry_date | K_exit_date | K_profit_loss
| K_risk_reward_ratio | K_notes.

(** [trade[key]], [None] being [null]. *)
Definition field (k : TradeKey) (t : Trade) : option JsVal :=
  match k with
  | K_id => Some (VStr (id t))
  | K_pair => Some (VStr (pair t))
  | K_timeframe => Some (VStr (timeframe t))
  | K_type => Some (VStr (TradeType_str (type t)))
  | K_entry_price => Some (VNum (entry_price t))
  | K_exit_price => option_map VNum (exit_price t)
  | K_stop_loss => Some (VNum (stop_loss t))
  | K_take_profit => Some (VNum (take_profit t))
  | K_entry_date => Some (VStr (entry_date t))
  | K_exit_date => option_map VStr (exit_date t)
  | K_profit_loss => option_map VNum (profit_loss t)
  | K_risk_reward_ratio => Some (VNum (risk_reward_ratio t))
  | K_notes => option_map VStr (notes t)
  end.

Inductive Direction := Asc | Desc.

Record SortConfig := mkSortConfig { key : TradeKey; direction : Direction }.

(** The comparator passed to [sort]. *)
Definition comparator (cfg : SortConfig) (a b : Trade) : Z :=
  match field (key cfg) a with
  | None => 1%Z
  | Some va =>
      match field (key cfg) b with
      | None => (-1)%Z
      | Some vb =>
          if js_lt va vb then (match direction cfg with Asc => -1 | Desc => 1 end)%Z
          else if js_lt vb va then (match direction cfg with Asc => 1 | Desc => -1 end)%Z
          else 0%Z
      end
  end.

Definition sort_lt (cfg : SortConfig) (a b : Trade) : bool :=
  (comparator cfg a b <? 0)%Z.

Definition sortedTrades (sortConfig : option SortConfig) (filteredTrades : list Trade)
  : list Trade :=
  match sortConfig with
  | None => filteredTrades
  | Some cfg => array_sort (sort_lt cfg) filteredTrades
  end.

Definition requestSort (sortConfig : option SortConfig) (k : TradeKey) : SortConfig :=
  let direction :=
    match sortConfig with
    | Some c =>
        if (match key c, k with
            | K_id, K_id | K_pair, K_pair | K_timeframe, K_timeframe
            | K_type, K_type | K_entry_price, K_entry_price
            | K_exit_price, K_exit_price | K_stop_loss, K_stop_loss
            | K_take_profit, K_take_profit | K_entry_date, K_entry_date
            | K_exit_date, K_exit_date | K_profit_loss, K_profit_loss
            | K_risk_reward_ratio, K_risk_reward_ratio | K_notes, K_notes => true
            | _, _ => false
            end)
           && (match direction c with Asc => true | Desc => false end)
        then Desc else Asc
    | None => Asc
    end in
  mkSortConfig k direction.

(** ** TradeJournal: the P/L inserted by [onSubmit] and the R:R warning *)

(** [if (data.entry_price && data.exit_price)] the P/L is
    [(exit - entry) * 100] for a Buy and [(entry - exit) * 100] otherwise;
    else [null]. *)
Definition submit_profit_loss (ty : TradeType) (entry exit : option Q) : option Q :=
  if js_truthy entry && js_truthy exit then
    match entry, exit with
    | Some e, Some x =>
        Some (match ty with
              | Buy => (x - e) * 100
              | Sell => (e - x) * 100
              end)
    | _, _ => None
    end
  else None.

(** The "Low R:R ratio" warning: [parseFloat(calculateRiskReward()) < 1]. *)
Definition lowRRWarning (w : FormWatch) : bool :=
  Qltb (parseFloat_rr (calculateRiskReward w)) 1.

(** ** TradeHistory: the filter panel *)

(** The state before any interaction, and after [resetFilters]. *)
Definition initial_filters : FilterCriteria :=
  mkCriteria "" "" "" "" "" "" false false.

(** The [onChange] / [onClick] handlers of the filter panel. *)
Inductive FilterEvent :=
| SetSearchTerm (s : string)
| SetPair (s : string)
| SetTimeframe (s : string)
| SetType (s : string)
| CheckProfitOnly (checked : bool)
| CheckLossOnly (checked : bool)
| SetDateFrom (s : string)
| SetDateTo (s : string)
| ResetFilters.

Definition filter_step (f : FilterCriteria) (e : FilterEvent) : FilterCriteria :=
  match e with
  | SetSearchTerm s =>
      mkCriteria s (f_pair f) (f_timeframe f) (f_type f) (dateFrom f) (dateTo f)
        (profitOnly f) (lossOnly f)
  | SetPair s =>
      mkCriteria (searchTerm f) s (f_timeframe f) (f_type f) (dateFrom f) (dateTo f)
        (profitOnly f) (lossOnly f)
  | SetTimeframe s =>
      mkCriteria (searchTerm f) (f_pair f) s (f_type f) (dateFrom f) (dateTo f)
        (profitOnly f) (lossOnly f)
  | SetType s =>
      mkCriteria (searchTerm f) (f_pair f) (f_timeframe f) s (dateFrom f) (dateTo f)
        (profitOnly f) (lossOnly f)
  | CheckProfitOnly checked =>
      mkCriteria (searchTerm f) (f_pair f) (f_timeframe f) (f_type f) (dateFrom f)
        (dateTo f) checked (if checked then false else lossOnly f)
  | CheckLossOnly checked =>
      mkCriteria (searchTerm f) (f_pair f) (f_timeframe f) (f_type f) (dateFrom f)
        (dateTo f) (if checked then false else profitOnly f) checked
  | SetDateFrom s =>
      mkCriteria (searchTerm f) (f_pair f) (f_timeframe f) (f_type f) s (dateTo f)
        (profitOnly f) (lossOnly f)
  | SetDateTo s =>
      mkCriteria (searchTerm f) (f_pair f) (f_timeframe f) (f_type f) (dateFrom f) s
        (profitOnly f) (lossOnly f)
  | ResetFilters => initial_filters
  end.

Definition filters_after (events : list FilterEvent) : FilterCriteria :=
  fold_left filter_step events initial_filters.

(** [getSortIndicator]: the icon shown in a column header. *)
Inductive SortIndicator := ArrowUpDown | ArrowUp | ArrowDown.

Definition TradeKey_eqb (a b : TradeKey) : bool :=
  match a, b with
  | K_id, K_id | K_pair, K_pair | K_timeframe, K_timeframe
  | K_type, K_type | K_entry_price, K_entry_price
  | K_exit_price, K_exit_price | K_stop_loss, K_stop_loss
  | K_take_profit, K_take_profit | K_entry_date, K_entry_date
  | K_exit_date, K_exit_date | K_profit_loss, K_profit_loss
  | K_risk_reward_ratio, K_risk_reward_ratio | K_notes, K_notes => true
  | _, _ => false
  end.

Definition getSortIndicator (sortConfig : option SortConfig) (k : TradeKey)
  : SortIndicator :=
  match sortConfig with
  | None => ArrowUpDown
  | Some c =>
      if negb (TradeKey_eqb (key c) k) then ArrowUpDown
      else match direction c with Asc => ArrowUp | Desc => ArrowDown end
  end.

(** ** Analytics: summary metrics *)

(** [trades.reduce((sum, trade) => sum + (trade.profit_loss || 0), 0)] *)
Definition totalProfitLoss (trades : list Trade) : Q :=
  fold_left (fun sum trade => sum + or0 (profit_loss trade)) trades 0.



Definition Q_of_nat (n : nat) : Q := inject_Z (Z.of_nat n).


Definition avgRiskReward (trades : list Trade) : Q :=
  if (0 <? length trades)%nat
  then fold_left (fun sum trade => sum + risk_reward_ratio trade) trades 0
       / Q_of_nat (length trades)
  else 0.

(** A [Record<string, Trade[]>] built by [reduce]: an association list in
    key insertion order, which is the order of [Object.entries] for the
    pair and timeframe names (none of them is an integer-like key).
    [if (!acc[k]) acc[k] = []; acc[k].push(trade)] *)
Fixpoint push_group (k : string) (trade : Trade) (acc : list (string * list Trade))
  : list (string * list Trade) :=
  match acc with
  | [] => [(k, [trade])]
  | (k', g) :: r =>
      if String.eqb k k' then (k', g ++ [trade]) :: r
      else (k', g) :: push_group k trade r
  end.

Definition groupBy (f : Trade -> string) (trades : list Trade)
  : list (string * list Trade) :=
  fold_left (fun acc trade => push_group (f trade) trade acc) trades [].

Definition tradesByPair (trades : list Trade) := groupBy pair trades.

Record PairPnl := mkPairPnl { pp_pair : string; pp_pnl : Q; pp_count : nat }.

Definition pnlByPair (trades : list Trade) : list PairPnl :=
  map (fun '(p, g) => mkPairPnl p (totalProfitLoss g) (length g)) (tradesByPair trades).



(** ** Analytics: cumulative P/L over time *)

Section Chronological.

(** [new Date(s).getTime()]. *)
Variable getTime : string -> Z.

(** [[...filteredTrades].sort((a, b) => getTime(a) - getTime(b))] *)
Definition chrono_lt (a b : Trade) : bool :=
  (getTime (entry_date a) - getTime (entry_date b) <? 0)%Z.

Definition chronological (trades : list Trade) : list Trade :=
  array_sort chrono_lt trades.

(** [Array.prototype.reduce] with the element index. *)
Fixpoint reduce_idx {A B} (f : B -> A -> nat -> B) (l : list A) (acc : B) (i : nat) : B :=
  match l with
  | [] => acc
  | x :: r => reduce_idx f r (f acc x i) (S i)
  end.

(** [const previousValue = index > 0 ? acc[index - 1] : 0;
     acc.push(previousValue + (trade.profit_loss || 0))] *)
Definition cumulative_step (acc : list Q) (trade : Trade) (index : nat) : list Q :=
  let previousValue := match index with O => 0 | S i => nth i acc 0 end in
  acc ++ [previousValue + or0 (profit_loss trade)].

Definition cumulativePnl (trades : list Trade) : list Q :=
  reduce_idx cumulative_step (chronological trades) [] 0.

End Chronological.

(** ** Statement helpers *)

(** A trade whose only relevant field is its risk:reward ratio. *)
Definition trade_rr (q : Q) : Trade :=
  mkTrade "" "" "" Buy 0 None 0 0 "" None None q None.

(** A trade identified by [i] with the given P/L. *)
Definition trade_pl (i : string) (pl : option Q) : Trade :=
  mkTrade i "" "" Buy 0 None 0 0 "" None pl 0 None.

(** The buckets as intervals, lower bound included, upper bound excluded. *)
Definition rr_bucket_spec (i : nat) (r : Q) : bool :=
  match i with
  | O => Qltb r 1
  | 1%nat => Qle_bool 1 r && Qltb r (3 # 2)
  | 2%nat => Qle_bool (3 # 2) r && Qltb r 2
  | 3%nat => Qle_bool 2 r && Qltb r 3
  | _ => Qle_bool 3 r
  end.

Definition count_rr (p : Q -> bool) (l : list Trade) : nat :=
  length (filter (fun t => p (risk_reward_ratio t)) l).

(** Risk and reward as the specification defines them. *)
Definition risk_of (ty : TradeType) (entry stop target : Q) : Q :=
  match ty with Buy => entry - stop | Sell => stop - entry end.

Definition reward_of (ty : TradeType) (entry stop target : Q) : Q :=
  match ty with Buy => target - entry | Sell => entry - target end.

Definition has_key (k : TradeKey) (t : Trade) : bool :=
  match field k t with Some _ => true | None => false end.

(** [trade[key] === v] ([null === null] holds). *)
Definition same_value (k : TradeKey) (v : option JsVal) (t : Trade) : bool :=
  match field k t, v with
  | None, None => true
  | Some x, Some y => js_eqb x y
  | _, _ => false
  end.

(** A numeric form value that is [undefined], [NaN] or [0]. *)
Definition absent_or_zero (x : option Q) : Prop :=
  x = None \/ exists q, x = Some q /\ q == 0.

(** The setting reached from the default after a sequence of inputs. *)
Definition settings_after (inputs : list (option Q)) : SettingsState :=
  fold_left (fun s v => handleRiskPercentageChange v s) inputs default_settings.

(** The order of a sorted output: no element is less than an earlier one. *)
Definition not_before {A} (lt : A -> A -> bool) (a b : A) : Prop := lt b a = false.

Definition b2n (b : bool) : nat := if b then 1%nat else 0%nat.

(** The criteria with another search term. *)
Definition with_search (c : FilterCriteria) (s : string) : FilterCriteria :=
  mkCriteria s (f_pair c) (f_timeframe c) (f_type c) (dateFrom c) (dateTo c)
    (profitOnly c) (lossOnly c).

(** The sum of [f] over a list. *)
Definition qsum {A} (f : A -> Q) (l : list A) : Q :=
  fold_right (fun x s => f x + s) 0 l.

(** The key lookup of an association list. *)
Fixpoint lookup_group (k : string) (acc : list (string * list Trade))
  : option (list Trade) :=
  match acc with
  | [] => None
  | (k', g) :: r => if String.eqb k k' then Some g else lookup_group k r
  end.

(** A group as the reduce leaves it: absent when empty. *)
Definition opt_nonempty {A} (l : list A) : option (list A) :=
  match l with [] => None | _ => Some l end.

(** * Proofs *)

(** ** Generic facts about lists *)

Lemma filter_all_false {A} (P : A -> bool) (l : list A) :
  (forall z, In z l -> P z = false) -> filter P l = [].
Proof.
  induction l as [|x r IH]; intros H; simpl; [reflexivity|].
  rewrite (H x (or_introl eq_refl)). apply IH. intros z Hz. apply H. now right.
Qed.

Lemma Permutation_filter_compat {A} (P : A -> bool) (l l' : list A) :
  Permutation l l' -> Permutation (filter P l) (filter P l').
Proof.
  induction 1 as [| x l l' _ IH | x y l | l l' l'' _ IH1 _ IH2]; simpl.
  - constructor.
  - destruct (P x); auto.
  - destruct (P x), (P y); auto. apply perm_swap.
  - eapply perm_trans; eauto.
Qed.

Lemma StronglySorted_filter {A} (R : A -> A -> Prop) (P : A -> bool) (l : list A) :
  StronglySorted R l -> StronglySorted R (filter P l).
Proof.
  induction l as [|x r IH]; intros H; simpl; [constructor|].
  apply StronglySorted_inv in H as [Hr Hx].
  destruct (P x); [|auto].
  constructor; [auto|].
  rewrite Forall_forall in *. intros z Hz. apply filter_In in Hz. apply Hx, Hz.
Qed.

Lemma StronglySorted_app_single {A} (R : A -> A -> Prop) (l : list A) (x : A) :
  StronglySorted R l -> (forall z, In z l -> R z x) -> StronglySorted R (l ++ [x]).
Proof.
  induction l as [|y r IH]; intros H Hx; simpl.
  - repeat constructor.
  - apply StronglySorted_inv in H as [Hr Hy].
    constructor.
    + apply IH; [exact Hr|]. intros z Hz. apply Hx. now right.
    + apply Forall_app. split; [exact Hy|]. constructor; [|constructor].
      apply Hx. now left.
Qed.

Lemma StronglySorted_rev {A} (R : A -> A -> Prop) (l : list A) :
  StronglySorted R l -> StronglySorted (fun a b => R b a) (rev l).
Proof.
  induction l as [|x r IH]; intros H; simpl; [constructor|].
  apply StronglySorted_inv in H as [Hr Hx].
  apply StronglySorted_app_single; [auto|].
  intros z Hz. apply in_rev in Hz. rewrite Forall_forall in Hx. now apply Hx.
Qed.

Lemma StronglySorted_weaken_in {A} (R R' : A -> A -> Prop) (l : list A) :
  (forall a b, In a l -> In b l -> R a b -> R' a b) ->
  StronglySorted R l -> StronglySorted R' l.
Proof.
  induction l as [|x r IH]; intros Himp H; [constructor|].
  apply StronglySorted_inv in H as [Hr Hx].
  constructor.
  - apply IH; [|exact Hr]. intros a b Ha Hb. apply Himp; now right.
  - rewrite Forall_forall in *. intros z Hz.
    apply Himp; [now left | now right | now apply Hx].
Qed.

(** Two lists that are permutations of each other and sorted by the same
    relation coincide, when that relation identifies mutually related
    elements. *)
Lemma StronglySorted_perm_unique {A} (R : A -> A -> Prop) (l1 l2 : list A) :
  StronglySorted R l1 -> StronglySorted R l2 -> Permutation l1 l2 ->
  (forall a b, In a l1 -> In b l1 -> R a b -> R b a -> a = b) ->
  l1 = l2.
Proof.
  revert l2.
  induction l1 as [|a r1 IH]; intros l2 H1 H2 Hp Hanti.
  - symmetry. now apply Permutation_nil.
  - destruct l2 as [|b r2].
    + apply Permutation_sym, Permutation_nil in Hp. discriminate.
    + apply StronglySorted_inv in H1 as [Hr1 Ha].
      apply StronglySorted_inv in H2 as [Hr2 Hb].
      rewrite Forall_forall in Ha, Hb.
      assert (Hab : a = b).
      { assert (Ina : In a (b :: r2)) by (eapply Permutation_in; [exact Hp | now left]).
        assert (Inb : In b (a :: r1))
          by (eapply Permutation_in; [apply Permutation_sym; exact Hp | now left]).
        destruct Ina as [-> | Ina]; [reflexivity|].
        destruct Inb as [<- | Inb]; [reflexivity|].
        apply Hanti; [now left | now right | now apply Ha | now apply Hb]. }
      subst b. f_equal.
      apply IH; [exact Hr1 | exact Hr2 | eapply Permutation_cons_inv; exact Hp |].
      intros x y Hx Hy. apply Hanti; now right.
Qed.

(** ** The stable insertion sort *)

Section ArraySortFacts.

Variable A : Type.
Variable lt : A -> A -> bool.
Hypothesis lt_irrefl : forall a, lt a a = false.
Hypothesis lt_trans : forall a b c, lt a b = true -> lt b c = true -> lt a c = true.

Lemma insert_sorted_perm (x : A) (acc : list A) :
  Permutation (insert_sorted lt x acc) (x :: acc).
Proof.
  induction acc as [|y r IH]; simpl; [auto|].
  destruct (lt x y); [auto|].
  eapply perm_trans; [apply perm_skip, IH | apply perm_swap].
Qed.

Lemma insertion_sort_from_perm (acc l : list A) :
  Permutation (insertion_sort_from lt acc l) (acc ++ l).
Proof.
  revert acc. induction l as [|x r IH]; intros acc; simpl.
  - now rewrite app_nil_r.
  - eapply perm_trans; [apply IH|].
    eapply perm_trans; [apply Permutation_app_tail, insert_sorted_perm|].
    simpl. apply Permutation_middle.
Qed.

Lemma array_sort_perm (l : list A) : Permutation (array_sort lt l) l.
Proof. apply insertion_sort_from_perm. Qed.

Lemma insert_sorted_sorted (x : A) (acc : list A) :
  StronglySorted (not_before lt) acc -> StronglySorted (not_before lt) (insert_sorted lt x acc).
Proof.
  unfold not_before.
  induction acc as [|y r IH]; intros H; simpl; [repeat constructor|].
  destruct (lt x y) eqn:Exy.
  - constructor; [exact H|].
    apply StronglySorted_inv in H as [_ Hy].
    constructor.
    + destruct (lt y x) eqn:Eyx; [|reflexivity].
      rewrite <- (lt_irrefl x). symmetry. now apply (lt_trans x y x).
    + rewrite Forall_forall in *. intros z Hz.
      destruct (lt z x) eqn:Ezx; [|reflexivity].
      rewrite <- (Hy z Hz). symmetry. now apply (lt_trans z x y).
  - apply StronglySorted_inv in H as [Hr Hy].
    constructor; [now apply IH|].
    rewrite Forall_forall in *. intros z Hz.
    apply (Permutation_in _ (insert_sorted_perm x r)) in Hz.
    destruct Hz as [<- | Hz]; [exact Exy | now apply Hy].
Qed.

Lemma insertion_sort_from_sorted (acc l : list A) :
  StronglySorted (not_before lt) acc ->
  StronglySorted (not_before lt) (insertion_sort_from lt acc l).
Proof.
  revert acc. induction l as [|x r IH]; intros acc H; simpl; [exact H|].
  apply IH, insert_sorted_sorted, H.
Qed.

Lemma array_sort_sorted (l : list A) : StronglySorted (not_before lt) (array_sort lt l).
Proof. apply insertion_sort_from_sorted. constructor. Qed.

(** Stability: a class of mutually unordered elements keeps its input
    order, provided [lt] is a strict weak order. *)
Section Stable.

Hypothesis lt_conn :
  forall a b c, lt a c = true -> lt a b = true \/ lt b c = true.
Variable P : A -> bool.
Hypothesis P_unordered : forall a b, P a = true -> P b = true -> lt a b = false.

Lemma insert_sorted_filter (x : A) (acc : list A) :
  StronglySorted (not_before lt) acc ->
  filter P (insert_sorted lt x acc) = filter P acc ++ (if P x then [x] else []).
Proof.
  unfold not_before.
  induction acc as [|y r IH]; intros H; [simpl; reflexivity|].
  cbn [insert_sorted].
  apply StronglySorted_inv in H as [Hr Hy].
  destruct (lt x y) eqn:Exy.
  - change (filter P (x :: y :: r))
      with (if P x then x :: filter P (y :: r) else filter P (y :: r)).
    destruct (P x) eqn:Px.
    + rewrite (filter_all_false P (y :: r)); [reflexivity|].
      intros z Hz.
      destruct (P z) eqn:Pz; [|reflexivity].
      exfalso.
      destruct Hz as [-> | Hz].
      * rewrite (P_unordered x z Px Pz) in Exy. discriminate.
      * rewrite Forall_forall in Hy.
        destruct (lt_conn x z y Exy) as [E | E].
        -- rewrite (P_unordered x z Px Pz) in E. discriminate.
        -- rewrite (Hy z Hz) in E. discriminate.
    + now rewrite app_nil_r.
  - simpl. rewrite (IH Hr). destruct (P y); reflexivity.
Qed.

Lemma insertion_sort_from_filter (acc l : list A) :
  StronglySorted (not_before lt) acc ->
  filter P (insertion_sort_from lt acc l) = filter P acc ++ filter P l.
Proof.
  revert acc. induction l as [|x r IH]; intros acc H; simpl.
  - now rewrite app_nil_r.
  - rewrite IH by now apply insert_sorted_sorted.
    rewrite insert_sorted_filter by exact H.
    rewrite <- app_assoc. destruct (P x); reflexivity.
Qed.

Lemma array_sort_stable (l : list A) : filter P (array_sort lt l) = filter P l.
Proof. apply insertion_sort_from_filter. constructor. Qed.

End Stable.

End ArraySortFacts.

(** ** The order on field values *)

Lemma Qltb_iff (x y : Q) : Qltb x y = true <-> x < y.
Proof.
  unfold Qltb. rewrite negb_true_iff.
  split; intros H.
  - apply Qnot_le_lt. intros Hle. apply Qle_bool_iff in Hle. congruence.
  - destruct (Qle_bool y x) eqn:E; [|reflexivity].
    apply Qle_bool_iff in E. exfalso. apply (Qlt_not_le x y); assumption.
Qed.

Lemma Qltb_false (x y : Q) : Qltb x y = false <-> y <= x.
Proof.
  unfold Qltb. rewrite negb_false_iff. apply Qle_bool_iff.
Qed.

Definition str_lt_b (a b : string) : bool :=
  match String_as_OT.compare a b with Lt => true | _ => false end.

Lemma str_lt_b_iff (a b : string) : str_lt_b a b = true <-> String_as_OT.lt a b.
Proof.
  unfold str_lt_b, String_as_OT.lt.
  destruct (String_as_OT.compare a b); split; congruence.
Qed.

(** The kind of a value: number or string. *)
Definition is_num (v : JsVal) : bool :=
  match v with VNum _ => true | VStr _ => false end.

Definition key_is_num (k : TradeKey) : bool :=
  match k with
  | K_entry_price | K_exit_price | K_stop_loss | K_take_profit
  | K_profit_loss | K_risk_reward_ratio => true
  | _ => false
  end.

Lemma field_kind (k : TradeKey) (t : Trade) (v : JsVal) :
  field k t = Some v -> is_num v = key_is_num k.
Proof.
  destruct k; simpl; intros H;
    repeat match goal with
    | H : option_map _ ?o = Some _ |- _ => destruct o; simpl in H; [|discriminate]
    end;
    injection H as <-; reflexivity.
Qed.

Lemma js_lt_irrefl (v : JsVal) : js_lt v v = false.
Proof.
  destruct v as [q|s]; simpl.
  - apply Qltb_false, Qle_refl.
  - destruct (String_as_OT.compare s s) eqn:E; try reflexivity.
    exfalso. apply (StrictOrder_Irreflexive s). exact E.
Qed.

Lemma js_lt_trans (a b c : JsVal) :
  js_lt a b = true -> js_lt b c = true -> js_lt a c = true.
Proof.
  destruct a as [a|a], b as [b|b], c as [c|c]; simpl; try discriminate.
  - rewrite !Qltb_iff. apply Qlt_trans.
  - fold (str_lt_b a b) (str_lt_b b c) (str_lt_b a c).
    rewrite !str_lt_b_iff. apply StrictOrder_Transitive.
Qed.

Lemma js_lt_asym (a b : JsVal) : js_lt a b = true -> js_lt b a = false.
Proof.
  intros H. destruct (js_lt b a) eqn:E; [|reflexivity].
  rewrite <- (js_lt_irrefl a). symmetry. eapply js_lt_trans; eassumption.
Qed.

Lemma js_lt_conn (a b c : JsVal) :
  is_num a = is_num b -> is_num b = is_num c ->
  js_lt a c = true -> js_lt a b = true \/ js_lt b c = true.
Proof.
  destruct a as [a|a], b as [b|b], c as [c|c]; simpl; try discriminate; intros _ _.
  - rewrite !Qltb_iff. intros Hac.
    destruct (Qlt_le_dec a b) as [Hab|Hba]; [now left|].
    right. eapply Qle_lt_trans; eassumption.
  - fold (str_lt_b a b) (str_lt_b b c) (str_lt_b a c).
    rewrite !str_lt_b_iff. intros Hac.
    destruct (String_as_OT.compare_spec a b) as [Hab|Hab|Hba].
    + right. unfold String_as_OT.eq in Hab. now subst.
    + now left.
    + right. eapply StrictOrder_Transitive; eassumption.
Qed.

Lemma js_lt_total (a b : JsVal) :
  is_num a = is_num b -> js_lt a b = false -> js_lt b a = false -> js_eqb a b = true.
Proof.
  destruct a as [a|a], b as [b|b]; simpl; try discriminate; intros _.
  - rewrite !Qltb_false. intros H1 H2. apply Qeq_bool_iff, Qle_antisym; assumption.
  - fold (str_lt_b a b) (str_lt_b b a). intros H1 H2.
    apply String.eqb_eq.
    destruct (String_as_OT.compare_spec a b) as [Hab|Hab|Hba]; [exact Hab| |].
    + apply str_lt_b_iff in Hab. congruence.
    + apply str_lt_b_iff in Hba. congruence.
Qed.

Lemma js_lt_eqb_compat (x x' y y' : JsVal) :
  js_eqb x x' = true -> js_eqb y y' = true -> js_lt x y = js_lt x' y'.
Proof.
  destruct x as [x|x], x' as [x'|x'], y as [y|y], y' as [y'|y']; simpl;
    try discriminate; try reflexivity; intros Hx Hy.
  - apply Qeq_bool_iff in Hx, Hy. unfold Qltb.
    destruct (Qle_bool y x) eqn:E1, (Qle_bool y' x') eqn:E2; try reflexivity;
      apply Qle_bool_iff in E1 || apply Qle_bool_iff in E2; exfalso.
    + assert (y' <= x') by (rewrite <- Hx, <- Hy; exact E1).
      apply Qle_bool_iff in H. congruence.
    + assert (y <= x) by (rewrite Hx, Hy; exact E2).
      apply Qle_bool_iff in H. congruence.
  - apply String.eqb_eq in Hx, Hy. now subst.
Qed.

(** ** The comparator *)

(** [comparefn(a, b) < 0] exactly when [a] has the key and [b] is null, or
    both have it and [a] comes first in the chosen direction. *)
Lemma sort_lt_spec (cfg : SortConfig) (a b : Trade) :
  sort_lt cfg a b =
  match field (key cfg) a, field (key cfg) b with
  | None, _ => false
  | Some _, None => true
  | Some va, Some vb =>
      match direction cfg with Asc => js_lt va vb | Desc => js_lt vb va end
  end.
Proof.
  unfold sort_lt, comparator.
  destruct (field (key cfg) a) as [va|]; [|reflexivity].
  destruct (field (key cfg) b) as [vb|]; [|reflexivity].
  destruct (js_lt va vb) eqn:E1, (js_lt vb va) eqn:E2, (direction cfg);
    try reflexivity.
  apply js_lt_asym in E1. congruence.
Qed.

Lemma sort_lt_irrefl (cfg : SortConfig) (a : Trade) : sort_lt cfg a a = false.
Proof.
  rewrite sort_lt_spec.
  destruct (field (key cfg) a); [|reflexivity].
  destruct (direction cfg); apply js_lt_irrefl.
Qed.

Lemma sort_lt_trans (cfg : SortConfig) (a b c : Trade) :
  sort_lt cfg a b = true -> sort_lt cfg b c = true -> sort_lt cfg a c = true.
Proof.
  rewrite !sort_lt_spec.
  destruct (field (key cfg) a) as [va|], (field (key cfg) b) as [vb|],
    (field (key cfg) c) as [vc|]; try discriminate; try reflexivity.
  destruct (direction cfg); intros H1 H2; eapply js_lt_trans; eassumption.
Qed.

Lemma sort_lt_conn (cfg : SortConfig) (a b c : Trade) :
  sort_lt cfg a c = true -> sort_lt cfg a b = true \/ sort_lt cfg b c = true.
Proof.
  rewrite !sort_lt_spec.
  destruct (field (key cfg) a) as [va|] eqn:Ea, (field (key cfg) b) as [vb|] eqn:Eb,
    (field (key cfg) c) as [vc|] eqn:Ec; try discriminate; auto.
  apply field_kind in Ea, Eb, Ec.
  destruct (direction cfg); intros H.
  - apply js_lt_conn; congruence.
  - destruct (js_lt_conn vc vb va) as [E|E]; auto; congruence.
Qed.

(** ** Histogram *)

Lemma Qltb_mono (r a b : Q) : Qltb r a = true -> a <= b -> Qltb r b = true.
Proof.
  rewrite !Qltb_iff. intros H1 H2. eapply Qlt_le_trans; eassumption.
Qed.

Lemma Qle_bool_as_Qltb (a r : Q) : Qle_bool a r = negb (Qltb r a).
Proof. unfold Qltb. now rewrite negb_involutive. Qed.

Lemma rr_step_spec (t : Trade) (a b c d e : nat) :
  rr_step [a; b; c; d; e] t =
  [a + b2n (rr_bucket_spec 0 (risk_reward_ratio t));
   b + b2n (rr_bucket_spec 1 (risk_reward_ratio t));
   c + b2n (rr_bucket_spec 2 (risk_reward_ratio t));
   d + b2n (rr_bucket_spec 3 (risk_reward_ratio t));
   e + b2n (rr_bucket_spec 4 (risk_reward_ratio t))]%nat.
Proof.
  unfold rr_step, rr_bucket_spec. rewrite !Qle_bool_as_Qltb.
  set (q := risk_reward_ratio t).
  destruct (Qltb q 3) eqn:E4; destruct (Qltb q 2) eqn:E3;
    destruct (Qltb q (3 # 2)) eqn:E2; destruct (Qltb q 1) eqn:E1;
    simpl; rewrite ?Nat.add_0_r, ?Nat.add_1_r; try reflexivity.
  all: exfalso.
  all: first
    [ assert (Qltb q (3 # 2) = true) by (eapply Qltb_mono; [eassumption | discriminate]); congruence
    | assert (Qltb q 2 = true) by (eapply Qltb_mono; [eassumption | discriminate]); congruence
    | assert (Qltb q 3 = true) by (eapply Qltb_mono; [eassumption | discriminate]); congruence ].
Qed.

Lemma riskRewardRanges_fold (l : list Trade) (a b c d e : nat) :
  fold_left rr_step l [a; b; c; d; e] =
  [a + count_rr (rr_bucket_spec 0) l; b + count_rr (rr_bucket_spec 1) l;
   c + count_rr (rr_bucket_spec 2) l; d + count_rr (rr_bucket_spec 3) l;
   e + count_rr (rr_bucket_spec 4) l]%nat.
Proof.
  revert a b c d e.
  induction l as [|t r IH]; intros a b c d e; simpl.
  - rewrite !Nat.add_0_r. reflexivity.
  - rewrite rr_step_spec, IH. unfold count_rr, b2n. simpl.
    repeat match goal with
    | |- context [if ?x then _ else _] => destruct x
    end; simpl; repeat (apply (f_equal2 (@cons nat)); [lia|]); reflexivity.
Qed.

(** C1 (as stated): for the ratios [0.5; 1.5; 1.8; 2.9; 4.0] the claimed
    counts [1;1;1;1;1] are not what the histogram produces. *)
Lemma C1_histogram_counterexample :
  riskRewardRanges (map trade_rr [1 # 2; 3 # 2; 9 # 5; 29 # 10; 4])
  <> [1; 1; 1; 1; 1]%nat.
Proof. vm_compute. discriminate. Qed.

(** C1 (amended): for any records whose ratios are
    [0.5; 1.5; 1.8; 2.9; 4.0], the histogram counts are [1;0;2;1;1]: the
    boundary value 1.5 falls in the third bucket (1.5 - 2). *)
Theorem C1_histogram_example (l : list Trade)
  (H : map risk_reward_ratio l = [1 # 2; 3 # 2; 9 # 5; 29 # 10; 4]) :
  riskRewardRanges l = [1; 0; 2; 1; 1]%nat.
Proof.
  destruct l as [|t1 [|t2 [|t3 [|t4 [|t5 [|t6 l]]]]]]; try discriminate.
  simpl in H. injection H as H1 H2 H3 H4 H5.
  unfold riskRewardRanges, riskRewardRanges_init.
  rewrite riskRewardRanges_fold. unfold count_rr. simpl.
  rewrite H1, H2, H3, H4, H5. reflexivity.
Qed.

Lemma C1_histogram_example_witness :
  riskRewardRanges (map trade_rr [1 # 2; 3 # 2; 9 # 5; 29 # 10; 4]) = [1; 0; 2; 1; 1]%nat.
Proof. apply C1_histogram_example. reflexivity. Defined.

(** C2: for every record list the five counts are the numbers of records in
    the intervals [< 1], [[1, 1.5)], [[1.5, 2)], [[2, 3)] and [>= 3], which
    are what the first-match chain [< 1], [< 1.5], [< 2], [< 3], else
    selects; every ratio lies in exactly one of them, and a ratio of exactly
    1.5 is counted in the 1.5 - 2 bucket. *)
Theorem C2_histogram_buckets (l : list Trade) :
  riskRewardRanges l = map (fun i => count_rr (rr_bucket_spec i) l) [0; 1; 2; 3; 4]%nat
  /\ (forall r, length (filter (fun i => rr_bucket_spec i r) [0; 1; 2; 3; 4]%nat) = 1%nat)
  /\ riskRewardRanges [trade_rr (3 # 2)] = [0; 0; 1; 0; 0]%nat.
Proof.
  split; [|split].
  - unfold riskRewardRanges, riskRewardRanges_init.
    rewrite riskRewardRanges_fold. reflexivity.
  - intros q. unfold rr_bucket_spec. rewrite !Qle_bool_as_Qltb.
    destruct (Qltb q 3) eqn:E4; destruct (Qltb q 2) eqn:E3;
      destruct (Qltb q (3 # 2)) eqn:E2; destruct (Qltb q 1) eqn:E1;
      simpl; try reflexivity.
    all: exfalso.
    all: first
      [ assert (Qltb q (3 # 2) = true) by (eapply Qltb_mono; [eassumption | discriminate]); congruence
      | assert (Qltb q 2 = true) by (eapply Qltb_mono; [eassumption | discriminate]); congruence
      | assert (Qltb q 3 = true) by (eapply Qltb_mono; [eassumption | discriminate]); congruence ].
  - reflexivity.
Qed.

(** ** [toFixed(2)] *)

Lemma Qfloor_nonneg (y : Q) : 0 < y -> (0 <= Qfloor y)%Z.
Proof.
  intros Hy.
  assert (Hlt : y < inject_Z (Qfloor y + 1)) by apply Qlt_floor.
  assert (H0 : inject_Z 0 < inject_Z (Qfloor y + 1)) by (eapply Qlt_trans; [exact Hy | exact Hlt]).
  rewrite <- Zlt_Qlt in H0. lia.
Qed.

(** [parseFloat(x.toFixed(2))] is within half a hundredth of [x]. *)
Lemma toFixed2_close (x : Q) : Qabs (parseFloat_fixed (toFixed2 x) - x) <= 1 # 200.
Proof.
  unfold toFixed2, parseFloat_fixed.
  destruct (Qltb x 0) eqn:E; cbn [fx_neg fx_hundredths].
  - apply Qltb_iff in E.
    set (y := - x * 100 + (1 # 2)).
    assert (Hy : 0 < y) by (unfold y; lra).
    pose proof (Qfloor_le y) as Hle. pose proof (Qlt_floor y) as Hlt.
    rewrite Z2N.id by (now apply Qfloor_nonneg).
    rewrite inject_Z_plus in Hlt. change (inject_Z 1) with 1 in Hlt.
    set (f := inject_Z (Qfloor y)) in *.
    apply Qabs_Qle_condition. unfold y in *.
    unfold Qdiv. change (/ 100) with (1 # 100). split; lra.
  - apply Qltb_false in E.
    set (y := x * 100 + (1 # 2)).
    assert (Hy : 0 < y) by (unfold y; lra).
    pose proof (Qfloor_le y) as Hle. pose proof (Qlt_floor y) as Hlt.
    rewrite Z2N.id by (now apply Qfloor_nonneg).
    rewrite inject_Z_plus in Hlt. change (inject_Z 1) with 1 in Hlt.
    set (f := inject_Z (Qfloor y)) in *.
    apply Qabs_Qle_condition. unfold y in *.
    unfold Qdiv. change (/ 100) with (1 # 100). split; lra.
Qed.

(** [parseFloat(x.toFixed(2))] is a whole number of hundredths. *)
Lemma toFixed2_hundredths (x : Q) :
  exists n : Z, parseFloat_fixed (toFixed2 x) == inject_Z n / 100.
Proof.
  unfold parseFloat_fixed.
  destruct (fx_neg (toFixed2 x)).
  - exists (- Z.of_N (fx_hundredths (toFixed2 x)))%Z.
    rewrite inject_Z_opp. field.
  - exists (Z.of_N (fx_hundredths (toFixed2 x))). reflexivity.
Qed.

(** ** Risk:reward at entry time *)

Lemma js_truthy_pos (q : Q) : 0 < q -> js_truthy (Some q) = true.
Proof.
  intros H. simpl. destruct (Qeq_bool q 0) eqn:E; [|reflexivity].
  apply Qeq_bool_iff in E. rewrite E in H. discriminate.
Qed.

Lemma js_truthy_absent (x : option Q) : absent_or_zero x -> js_truthy x = false.
Proof.
  intros [-> | [q [-> Hq]]]; simpl; [reflexivity|].
  apply Qeq_bool_iff in Hq. now rewrite Hq.
Qed.

Lemma calculateRiskReward_pos (ty : TradeType) (entry stop target : Q) :
  0 < entry -> 0 < stop -> 0 < target ->
  calculateRiskReward (mkWatch (Some stop) (Some target) (Some entry) ty) =
  if Qle_bool (risk_of ty entry stop target) 0 then RRNum 0
  else RRStr (toFixed2 (reward_of ty entry stop target / risk_of ty entry stop target)).
Proof.
  intros He Hs Ht.
  unfold calculateRiskReward. cbn [stopLoss takeProfit entryPrice tradeType].
  rewrite !js_truthy_pos by assumption. cbn [negb orb].
  destruct ty; reflexivity.
Qed.

(** C4 (as stated): the result is not [reward / risk]; for a Buy at 100 with
    stop 97 and target 110 the function yields the string ["3.33"], whose
    value differs from [10 / 3]. *)
Lemma C4_risk_reward_counterexample :
  ~ (parseFloat_rr (calculateRiskReward (mkWatch (Some 97) (Some 110) (Some 100) Buy))
     == (110 - 100) / (100 - 97)).
Proof. vm_compute. discriminate. Qed.

(** C4 (amended): for positive prices, with risk and reward as the
    specification defines them per trade type, the result is the number [0]
    when [risk <= 0] and otherwise the string [(reward / risk).toFixed(2)],
    i.e. the quotient rounded to two decimals (within 0.005 of it);
    [Buy 100/90/130] gives ["3.00"] and [Buy 100/110/130] gives [0]. *)
Theorem C4_calculateRiskReward (ty : TradeType) (entry stop target : Q)
  (He : 0 < entry) (Hs : 0 < stop) (Ht : 0 < target) :
  let w := mkWatch (Some stop) (Some target) (Some entry) ty in
  let risk := risk_of ty entry stop target in
  let reward := reward_of ty entry stop target in
  (risk <= 0 -> calculateRiskReward w = RRNum 0)
  /\ (0 < risk ->
      calculateRiskReward w = RRStr (toFixed2 (reward / risk))
      /\ Qabs (parseFloat_rr (calculateRiskReward w) - reward / risk) <= 1 # 200)
  /\ calculateRiskReward (mkWatch (Some 90) (Some 130) (Some 100) Buy) = RRStr (mkFixed false 300)
  /\ calculateRiskReward (mkWatch (Some 110) (Some 130) (Some 100) Buy) = RRNum 0.
Proof.
  intros w risk reward. unfold w.
  rewrite calculateRiskReward_pos by assumption. fold risk reward.
  split; [|split; [|split]].
  - intros H. apply Qle_bool_iff in H. now rewrite H.
  - intros H.
    assert (E : Qle_bool risk 0 = false).
    { apply Qltb_iff in H. unfold Qltb in H. now apply negb_true_iff. }
    rewrite E. split; [reflexivity|].
    apply toFixed2_close.
  - reflexivity.
  - reflexivity.
Qed.

Lemma C4_calculateRiskReward_witness :
  calculateRiskReward (mkWatch (Some 97) (Some 110) (Some 100) Buy)
  = RRStr (toFixed2 ((110 - 100) / (100 - 97))).
Proof.
  refine (proj1 (proj1 (proj2 (C4_calculateRiskReward Buy 100 97 110 _ _ _)) _));
    vm_compute; reflexivity.
Defined.

(** C5 (as stated): the stored ratio is not the unrounded quotient; for a
    Buy at 100 with stop 97 and target 110 it is [3.33], not [10 / 3]. *)
Lemma C5_stored_ratio_counterexample :
  ~ (stored_risk_reward (mkWatch (Some 97) (Some 110) (Some 100) Buy)
     == (110 - 100) / (100 - 97)).
Proof. vm_compute. discriminate. Qed.

(** C5 (amended): for positive prices with [risk > 0] the ratio stored with
    the trade is [parseFloat((reward / risk).toFixed(2))]: the quotient
    rounded to a whole number of hundredths, within 0.005 of it. *)
Theorem C5_stored_ratio_rounded (ty : TradeType) (entry stop target : Q)
  (He : 0 < entry) (Hs : 0 < stop) (Ht : 0 < target)
  (Hrisk : 0 < risk_of ty entry stop target) :
  let w := mkWatch (Some stop) (Some target) (Some entry) ty in
  let q := reward_of ty entry stop target / risk_of ty entry stop target in
  stored_risk_reward w = parseFloat_fixed (toFixed2 q)
  /\ Qabs (stored_risk_reward w - q) <= 1 # 200
  /\ exists n : Z, stored_risk_reward w == inject_Z n / 100.
Proof.
  intros w q.
  assert (Hst : stored_risk_reward w = parseFloat_fixed (toFixed2 q)).
  { unfold stored_risk_reward, w. cbn [takeProfit stopLoss].
    rewrite !js_truthy_pos by assumption. cbn [andb].
    rewrite calculateRiskReward_pos by assumption.
    assert (E : Qle_bool (risk_of ty entry stop target) 0 = false).
    { apply Qltb_iff in Hrisk. unfold Qltb in Hrisk. now apply negb_true_iff. }
    rewrite E. reflexivity. }
  rewrite Hst. split; [reflexivity | split].
  - apply toFixed2_close.
  - apply toFixed2_hundredths.
Qed.

Lemma C5_stored_ratio_rounded_witness :
  stored_risk_reward (mkWatch (Some 97) (Some 110) (Some 100) Buy)
  = parseFloat_fixed (toFixed2 ((110 - 100) / (100 - 97))).
Proof.
  refine (proj1 (C5_stored_ratio_rounded Buy 100 97 110 _ _ _ _)); vm_compute; reflexivity.
Defined.

(** C10: when the stop loss, the take profit or the entry price is absent
    (or [NaN]) or zero, the result is [0] whatever the trade type and the
    other two values. *)
Theorem C10_guard_zero (w : FormWatch)
  (H : absent_or_zero (stopLoss w) \/ absent_or_zero (takeProfit w)
       \/ absent_or_zero (entryPrice w)) :
  calculateRiskReward w = RRNum 0.
Proof.
  unfold calculateRiskReward.
  destruct H as [H | [H | H]]; rewrite (js_truthy_absent _ H); cbn [negb orb];
    [reflexivity | now rewrite orb_true_r | now rewrite orb_true_r].
Qed.

(** A Sell at 100 with stop 110 and target 0 would have ratio 10. *)
Lemma C10_guard_zero_witness :
  calculateRiskReward (mkWatch (Some 110) (Some 0) (Some 100) Sell) = RRNum 0.
Proof.
  apply C10_guard_zero. right. left. right. exists 0. split; reflexivity.
Defined.

(** ** Settings *)

(** C9: an input [v] replaces the setting exactly when it is a number with
    [0.1 <= v <= 10]; [NaN] or an out-of-range number leaves it unchanged,
    so from the default [2] the setting always stays in [[0.1, 10]]. *)
Theorem C9_risk_percentage_bounds :
  (forall s v, (1 # 10) <= v <= 10 -> handleRiskPercentageChange (Some v) s = mkSettings v)
  /\ (forall s v, ~ ((1 # 10) <= v <= 10) -> handleRiskPercentageChange (Some v) s = s)
  /\ (forall s, handleRiskPercentageChange None s = s)
  /\ (forall inputs, (1 # 10) <= riskPercentage (settings_after inputs) <= 10).
Proof.
  split; [|split; [|split]].
  - intros s v [H1 H2]. simpl.
    apply Qle_bool_iff in H1, H2. now rewrite H1, H2.
  - intros s v H. simpl.
    destruct (Qle_bool (1 # 10) v) eqn:E1, (Qle_bool v 10) eqn:E2; try reflexivity.
    apply Qle_bool_iff in E1, E2. tauto.
  - reflexivity.
  - intros inputs. unfold settings_after.
    assert (Hgen : forall s, (1 # 10) <= riskPercentage s <= 10 ->
      (1 # 10) <= riskPercentage
        (fold_left (fun s v => handleRiskPercentageChange v s) inputs s) <= 10).
    { induction inputs as [|v r IH]; intros s Hs; simpl; [exact Hs|].
      apply IH. destruct v as [v|]; simpl; [|exact Hs].
      destruct (Qle_bool (1 # 10) v) eqn:E1, (Qle_bool v 10) eqn:E2; simpl; try exact Hs.
      apply Qle_bool_iff in E1, E2. now split. }
    apply Hgen. simpl. split; discriminate.
Qed.

Lemma C9_risk_percentage_bounds_witness :
  handleRiskPercentageChange (Some 5) default_settings = mkSettings 5
  /\ handleRiskPercentageChange (Some 20) default_settings = default_settings.
Proof.
  split.
  - apply (proj1 C9_risk_percentage_bounds). split; discriminate.
  - apply (proj1 (proj2 C9_risk_percentage_bounds)).
    intros [_ H]. apply H. reflexivity.
Defined.

(** ** Trade-history filter *)

Lemma prefix_iff (n h : string) : prefix n h = true <-> exists s, h = (n ++ s)%string.
Proof.
  revert h. induction n as [|a n IH]; intros h; simpl.
  - split; [eauto | intros _; now destruct h].
  - destruct h as [|b h]; simpl.
    + split; [discriminate | intros [s Hs]; discriminate].
    + destruct (Ascii.ascii_dec a b) as [<-|Hab].
      * rewrite IH. split; intros [s Hs]; exists s; [now subst | now injection Hs].
      * split; [discriminate|]. intros [s Hs]. injection Hs as Hs _. congruence.
Qed.

Lemma includes_iff (hay needle : string) :
  includes hay needle = true <-> is_substring needle hay.
Proof.
  unfold is_substring.
  induction hay as [|c hay IH].
  - change (includes "" needle) with (prefix needle "" || false).
    rewrite orb_false_r, prefix_iff. split.
    + intros [s Hs]. exists ""%string, s. exact Hs.
    + intros [pre [suf H]]. destruct pre as [|x pre]; [|discriminate].
      exists suf. exact H.
  - change (includes (String c hay) needle)
      with (prefix needle (String c hay) || includes hay needle).
    rewrite orb_true_iff, prefix_iff, IH. split.
    + intros [[s Hs] | [pre [suf Hs]]].
      * exists ""%string, s. exact Hs.
      * exists (String c pre), suf. simpl. now rewrite Hs.
    + intros [pre [suf H]]. destruct pre as [|x pre].
      * left. exists suf. exact H.
      * right. injection H as _ H. exists pre, suf. exact H.
Qed.

Lemma str_truthy_false (s : string) : str_truthy s = false <-> s = ""%string.
Proof.
  unfold str_truthy. rewrite negb_false_iff. apply String.eqb_eq.
Qed.

Lemma if_then_false (b r : bool) : (if b then false else r) = negb b && r.
Proof. now destruct b. Qed.

Lemma search_ok (s p : string) (ns : option string) :
  negb (str_truthy s && negb (includes (toLowerCase p) (toLowerCase s))
        && negb (match ns with
                 | Some n => includes (toLowerCase n) (toLowerCase s)
                 | None => false
                 end)) = true
  <-> s = ""%string
      \/ is_substring (toLowerCase s) (toLowerCase p)
      \/ exists n, ns = Some n /\ is_substring (toLowerCase s) (toLowerCase n).
Proof.
  rewrite negb_true_iff, !andb_false_iff, !negb_false_iff, str_truthy_false,
    includes_iff.
  destruct ns as [n|].
  - rewrite includes_iff. split.
    + intros [[H | H] | H]; auto. right. right. now exists n.
    + intros [H | [H | [n' [Hn H]]]]; auto. injection Hn as <-. auto.
  - split.
    + intros [[H | H] | H]; auto. discriminate.
    + intros [H | [H | [n' [Hn H]]]]; auto. discriminate.
Qed.

Lemma exact_ok (x f : string) :
  negb (str_truthy f && negb (String.eqb x f)) = true <-> f = ""%string \/ x = f.
Proof.
  rewrite negb_true_iff, andb_false_iff, negb_false_iff, str_truthy_false,
    String.eqb_eq.
  reflexivity.
Qed.

Lemma bound_ok (f : string) (a b : Z) :
  negb (str_truthy f && (a <? b)%Z) = true <-> f = ""%string \/ (b <= a)%Z.
Proof.
  rewrite negb_true_iff, andb_false_iff, str_truthy_false, Z.ltb_ge.
  reflexivity.
Qed.

Lemma or0_le_0 (x : option Q) :
  Qle_bool (or0 x) 0 = true <->
  (match x with Some q => q | None => 0 end) <= 0.
Proof.
  rewrite Qle_bool_iff.
  destruct x as [q|]; simpl; [|reflexivity].
  destruct (Qeq_bool q 0) eqn:E; [|reflexivity].
  apply Qeq_bool_iff in E. rewrite E. reflexivity.
Qed.

Lemma or0_ge_0 (x : option Q) :
  Qle_bool 0 (or0 x) = true <->
  0 <= (match x with Some q => q | None => 0 end).
Proof.
  rewrite Qle_bool_iff.
  destruct x as [q|]; simpl; [|reflexivity].
  destruct (Qeq_bool q 0) eqn:E; [|reflexivity].
  apply Qeq_bool_iff in E. rewrite E. reflexivity.
Qed.

Lemma profit_ok (b : bool) (x : option Q) :
  negb (b && Qle_bool (or0 x) 0) = true <->
  b = false \/ 0 < (match x with Some q => q | None => 0 end).
Proof.
  rewrite negb_true_iff, andb_false_iff.
  destruct (Qle_bool (or0 x) 0) eqn:E.
  - apply or0_le_0 in E. split.
    + intros [H|H]; [now left | discriminate].
    + intros [H|H]; [now left | exfalso; apply (Qlt_not_le _ _ H E)].
  - split; [intros _; right | intros _; now right].
    apply Qnot_le_lt. intros H. apply or0_le_0 in H. congruence.
Qed.

Lemma loss_ok (b : bool) (x : option Q) :
  negb (b && Qle_bool 0 (or0 x)) = true <->
  b = false \/ (match x with Some q => q | None => 0 end) < 0.
Proof.
  rewrite negb_true_iff, andb_false_iff.
  destruct (Qle_bool 0 (or0 x)) eqn:E.
  - apply or0_ge_0 in E. split.
    + intros [H|H]; [now left | discriminate].
    + intros [H|H]; [now left | exfalso; apply (Qlt_not_le _ _ H E)].
  - split; [intros _; right | intros _; now right].
    apply Qnot_le_lt. intros H. apply or0_ge_0 in H. congruence.
Qed.

(** C3: the filter keeps, in input order, exactly the records satisfying
    every active criterion: case-insensitive substring of the pair or of
    the (present) notes, exact pair, timeframe and type, inclusive date
    bounds, and [profit_loss > 0] / [< 0] for the two flags with [null]
    read as [0]. *)
Theorem C3_filter_conjunction (date_of : string -> Z) (c : FilterCriteria)
  (l : list Trade) :
  exists p, filteredTrades date_of c l = filter p l
            /\ forall t, p t = true <-> retained_spec date_of c t.
Proof.
  exists (filterPred date_of c). split; [reflexivity|].
  intros t. unfold filterPred, retained_spec, pl_null_as_0.
  rewrite !if_then_false, !andb_true_r, !andb_true_iff.
  rewrite search_ok, !exact_ok, !bound_ok, profit_ok, loss_ok.
  tauto.
Qed.

(** ** Trade-history sort *)

Lemma filter_all_true {A} (P : A -> bool) (l : list A) :
  (forall z, In z l -> P z = true) -> filter P l = l.
Proof.
  induction l as [|x r IH]; intros H; simpl; [reflexivity|].
  rewrite (H x (or_introl eq_refl)). f_equal. apply IH. intros z Hz. apply H. now right.
Qed.

Lemma sortedTrades_perm (cfg : SortConfig) (l : list Trade) :
  Permutation (sortedTrades (Some cfg) l) l.
Proof. apply array_sort_perm. Qed.

Lemma sortedTrades_sorted (cfg : SortConfig) (l : list Trade) :
  StronglySorted (not_before (sort_lt cfg)) (sortedTrades (Some cfg) l).
Proof.
  apply array_sort_sorted; [apply sort_lt_irrefl | apply sort_lt_trans].
Qed.

(** A list sorted by the comparator lists the records that have the key
    before those that do not. *)
Lemma sorted_nulls_split (cfg : SortConfig) (m : list Trade) :
  StronglySorted (not_before (sort_lt cfg)) m ->
  m = filter (has_key (key cfg)) m ++ filter (fun t => negb (has_key (key cfg) t)) m.
Proof.
  unfold not_before.
  induction m as [|x r IH]; intros H; [reflexivity|].
  apply StronglySorted_inv in H as [Hr Hx].
  rewrite Forall_forall in Hx. simpl.
  destruct (has_key (key cfg) x) eqn:Ex; simpl.
  - f_equal. now apply IH.
  - assert (Hnull : forall z, In z r -> has_key (key cfg) z = false).
    { intros z Hz. specialize (Hx z Hz).
      rewrite sort_lt_spec in Hx. unfold has_key in *.
      destruct (field (key cfg) x); [discriminate|].
      destruct (field (key cfg) z); [discriminate | reflexivity]. }
    rewrite (filter_all_false _ r Hnull).
    rewrite filter_all_true; [reflexivity|].
    intros z Hz. now rewrite (Hnull z Hz).
Qed.

Lemma sortedTrades_nulls_last (cfg : SortConfig) (l : list Trade) :
  exists l1 l2,
    sortedTrades (Some cfg) l = l1 ++ l2
    /\ Forall (fun t => field (key cfg) t <> None) l1
    /\ Forall (fun t => field (key cfg) t = None) l2.
Proof.
  set (m := sortedTrades (Some cfg) l).
  exists (filter (has_key (key cfg)) m), (filter (fun t => negb (has_key (key cfg) t)) m).
  split; [apply sorted_nulls_split, sortedTrades_sorted|].
  split; rewrite Forall_forall; intros t Ht; apply filter_In in Ht as [_ Ht];
    unfold has_key in Ht; destruct (field (key cfg) t); try discriminate; auto.
Qed.

(** C6: in every direction, every record whose sort-key value is null comes
    after every record that has a value (the output is a permutation of the
    input). *)
Theorem C6_nulls_last (cfg : SortConfig) (l : list Trade) :
  Permutation (sortedTrades (Some cfg) l) l
  /\ exists l1 l2,
       sortedTrades (Some cfg) l = l1 ++ l2
       /\ Forall (fun t => field (key cfg) t <> None) l1
       /\ Forall (fun t => field (key cfg) t = None) l2.
Proof.
  split; [apply sortedTrades_perm | apply sortedTrades_nulls_last].
Qed.

Lemma same_value_unordered (cfg : SortConfig) (v : option JsVal) (a b : Trade) :
  same_value (key cfg) v a = true -> same_value (key cfg) v b = true ->
  sort_lt cfg a b = false.
Proof.
  unfold same_value. rewrite sort_lt_spec.
  destruct (field (key cfg) a) as [va|], (field (key cfg) b) as [vb|], v as [w|];
    try discriminate; try reflexivity.
  intros Ha Hb.
  destruct (direction cfg).
  - rewrite (js_lt_eqb_compat va w vb w Ha Hb). apply js_lt_irrefl.
  - rewrite (js_lt_eqb_compat vb w va w Hb Ha). apply js_lt_irrefl.
Qed.

(** C7: the sort is stable: for every value [v], the records whose sort-key
    value equals [v] ([null] included) appear in the output in their input
    order. *)
Theorem C7_sort_stable (cfg : SortConfig) (l : list Trade) (v : option JsVal) :
  filter (same_value (key cfg) v) (sortedTrades (Some cfg) l)
  = filter (same_value (key cfg) v) l.
Proof.
  apply array_sort_stable.
  - apply sort_lt_irrefl.
  - apply sort_lt_trans.
  - apply sort_lt_conn.
  - apply same_value_unordered.
Qed.

Lemma requestSort_twice (k : TradeKey) :
  requestSort None k = mkSortConfig k Asc
  /\ requestSort (Some (mkSortConfig k Asc)) k = mkSortConfig k Desc.
Proof. destruct k; split; reflexivity. Qed.

(** C8 (as stated): with two records of equal value, sorting ascending then
    descending keeps them in input order both times, so the second result is
    not the reverse of the first. *)
Lemma C8_toggle_counterexample :
  let l := [trade_pl "a" (Some 1); trade_pl "b" (Some 1)] in
  let k := K_profit_loss in
  filter (has_key k) (sortedTrades (Some (requestSort (Some (requestSort None k)) k)) l)
  <> rev (filter (has_key k) (sortedTrades (Some (requestSort None k)) l)).
Proof. vm_compute. discriminate. Qed.

Lemma sort_lt_flip (k : TradeKey) (a b : Trade) :
  has_key k a = true -> has_key k b = true ->
  sort_lt (mkSortConfig k Desc) b a = sort_lt (mkSortConfig k Asc) a b.
Proof.
  rewrite !sort_lt_spec. unfold has_key. cbn [key direction].
  destruct (field k a), (field k b); congruence.
Qed.

Lemma sortedTrades_same_value_stable (cfg : SortConfig) (l : list Trade)
  (v : option JsVal) :
  filter (same_value (key cfg) v) (sortedTrades (Some cfg) l)
  = filter (same_value (key cfg) v) l.
Proof.
  apply array_sort_stable.
  - apply sort_lt_irrefl.
  - apply sort_lt_trans.
  - apply sort_lt_conn.
  - apply same_value_unordered.
Qed.

(** C8 (amended): requesting the same key twice (ascending, then
    descending): when the non-null sort-key values of the records are
    pairwise distinct, the second result lists the non-null records in
    exactly the reversed order of the first; in both results the
    null-valued records come last; and in both results the records with
    equal key values keep their input order (the sort is stable), so with
    ties the order is not reversed. *)
Theorem C8_toggle_reverses (k : TradeKey) (l : list Trade) :
  let asc := sortedTrades (Some (requestSort None k)) l in
  let desc := sortedTrades (Some (requestSort (Some (requestSort None k)) k)) l in
  ((forall a b va vb, In a l -> In b l ->
      field k a = Some va -> field k b = Some vb -> js_eqb va vb = true -> a = b) ->
   filter (has_key k) desc = rev (filter (has_key k) asc))
  /\ asc = filter (has_key k) asc ++ filter (fun t => negb (has_key k t)) asc
  /\ desc = filter (has_key k) desc ++ filter (fun t => negb (has_key k t)) desc
  /\ (forall v, filter (same_value k v) asc = filter (same_value k v) l
               /\ filter (same_value k v) desc = filter (same_value k v) l).
Proof.
  destruct (requestSort_twice k) as [E1 E2].
  intros asc desc. unfold asc, desc. rewrite E1, E2.
  set (cA := mkSortConfig k Asc). set (cD := mkSortConfig k Desc).
  split; [|split; [|split]].
  2: apply (sorted_nulls_split cA), sortedTrades_sorted.
  2: apply (sorted_nulls_split cD), sortedTrades_sorted.
  2: intros v; split; [apply (sortedTrades_same_value_stable cA)
                      | apply (sortedTrades_same_value_stable cD)].
  intros Hdistinct.
  apply (StronglySorted_perm_unique (not_before (sort_lt cD))).
  - apply StronglySorted_filter, sortedTrades_sorted.
  - apply (StronglySorted_weaken_in
             (fun a b => not_before (sort_lt cA) b a)).
    + intros a b Ha Hb. unfold not_before.
      apply in_rev, filter_In in Ha as [_ Ha].
      apply in_rev, filter_In in Hb as [_ Hb].
      unfold cD, cA. rewrite (sort_lt_flip k a b Ha Hb). auto.
    + apply StronglySorted_rev, StronglySorted_filter, sortedTrades_sorted.
  - eapply perm_trans; [apply Permutation_filter_compat, sortedTrades_perm|].
    eapply perm_trans;
      [apply Permutation_filter_compat, Permutation_sym, (sortedTrades_perm cA)|].
    apply Permutation_rev.
  - intros a b Ha Hb. unfold not_before. intros Hab Hba.
    apply filter_In in Ha as [Ha Hka]. apply filter_In in Hb as [Hb Hkb].
    apply (Permutation_in _ (sortedTrades_perm cD l)) in Ha, Hb.
    unfold has_key in Hka, Hkb.
    destruct (field k a) as [va|] eqn:Ea; [|discriminate].
    destruct (field k b) as [vb|] eqn:Eb; [|discriminate].
    rewrite sort_lt_spec in Hab, Hba. cbn [cD key direction] in Hab, Hba.
    rewrite Ea, Eb in Hab, Hba.
    apply (Hdistinct a b va vb Ha Hb Ea Eb).
    apply js_lt_total; [|exact Hab|exact Hba].
    rewrite (field_kind k a va Ea), (field_kind k b vb Eb). reflexivity.
Qed.

Lemma C8_toggle_reverses_witness :
  let l := [trade_pl "a" (Some 1); trade_pl "b" (Some 2); trade_pl "c" None] in
  let k := K_profit_loss in
  filter (has_key k) (sortedTrades (Some (requestSort (Some (requestSort None k)) k)) l)
  = rev (filter (has_key k) (sortedTrades (Some (requestSort None k)) l)).
Proof.
  intros l k.
  refine (proj1 (C8_toggle_reverses k l) _).
  intros a b va vb Ha Hb.
  simpl in Ha, Hb.
  destruct Ha as [<- | [<- | [<- | []]]]; destruct Hb as [<- | [<- | [<- | []]]];
    simpl; intros H1 H2 H3;
    first
      [ reflexivity
      | discriminate H1
      | discriminate H2
      | (injection H1 as H1; injection H2 as H2; subst; vm_compute in H3;
         discriminate H3) ].
Defined.

(** ** The filter panel *)

Lemma filter_step_exclusive (f : FilterCriteria) (e : FilterEvent) :
  profitOnly f && lossOnly f = false ->
  profitOnly (filter_step f e) && lossOnly (filter_step f e) = false.
Proof.
  intros H. destruct e as [s|s|s|s|b|b|s|s|]; simpl; try assumption.
  all: try (destruct b; simpl; first [reflexivity | assumption | apply andb_false_r]).
  reflexivity.
Qed.

(** The two P/L check boxes are never both ticked: whatever sequence of
    panel events (text fields, selects, dates, check boxes, reset) follows
    the initial state, ticking one box clears the other. *)
Theorem filters_never_profit_and_loss (events : list FilterEvent) :
  profitOnly (filters_after events) && lossOnly (filters_after events) = false.
Proof.
  unfold filters_after.
  assert (H0 : profitOnly initial_filters && lossOnly initial_filters = false)
    by reflexivity.
  revert H0. generalize initial_filters.
  induction events as [|e r IH]; intros f Hf; simpl; [assumption|].
  apply IH. apply filter_step_exclusive. assumption.
Qed.

(** After "Reset Filters" the list shown is the whole input, whatever the
    criteria were before. *)
Theorem resetFilters_shows_all (date_of : string -> Z) (c : FilterCriteria)
  (l : list Trade) :
  filteredTrades date_of (filter_step c ResetFilters) l = l.
Proof.
  apply filter_all_true. intros t _. reflexivity.
Qed.

Lemma profit_and_loss_excl (x : Q) :
  negb (Qle_bool x 0) && negb (Qle_bool 0 x) = false.
Proof.
  destruct (Qle_bool x 0) eqn:E; [reflexivity|]. simpl.
  apply negb_false_iff, Qle_bool_iff.
  assert (H : ~ x <= 0) by (intros H; apply Qle_bool_iff in H; congruence).
  apply Qnot_le_lt in H. apply Qlt_le_weak. assumption.
Qed.

(** A criteria state with both P/L flags set (which the panel itself never
    produces) would hide every trade: no P/L is both [> 0] and [< 0]. *)
Theorem filteredTrades_both_flags_empty (date_of : string -> Z) (c : FilterCriteria)
  (l : list Trade) :
  profitOnly c = true -> lossOnly c = true -> filteredTrades date_of c l = [].
Proof.
  intros Hp Hl. apply filter_all_false. intros t _.
  unfold filterPred. rewrite !if_then_false, Hp, Hl, !andb_true_l, andb_true_r.
  rewrite profit_and_loss_excl, !andb_false_r. reflexivity.
Qed.

Lemma filteredTrades_both_flags_empty_witness :
  filteredTrades (fun _ => 0%Z) (mkCriteria "" "" "" "" "" "" true true)
    [trade_pl "a" (Some 5); trade_pl "b" (Some (-5)); trade_pl "c" None] = [].
Proof.
  apply (filteredTrades_both_flags_empty (fun _ => 0%Z)
           (mkCriteria "" "" "" "" "" "" true true)); reflexivity.
Defined.

Lemma str_truthy_toLowerCase (s : string) : str_truthy (toLowerCase s) = str_truthy s.
Proof. destruct s; reflexivity. Qed.

(** The search box is case-insensitive: two search terms with the same
    lower-case form select the same trades. *)
Theorem filteredTrades_search_case_insensitive (date_of : string -> Z)
  (c : FilterCriteria) (s1 s2 : string) (l : list Trade) :
  toLowerCase s1 = toLowerCase s2 ->
  filteredTrades date_of (with_search c s1) l = filteredTrades date_of (with_search c s2) l.
Proof.
  intros H. apply filter_ext. intros t.
  unfold filterPred, with_search. cbn [searchTerm f_pair f_timeframe f_type dateFrom dateTo
    profitOnly lossOnly].
  rewrite <- (str_truthy_toLowerCase s1), <- (str_truthy_toLowerCase s2), H.
  reflexivity.
Qed.

Lemma filteredTrades_search_case_insensitive_witness :
  toLowerCase "EUR" = toLowerCase "eur" /\
  filteredTrades (fun _ => 0%Z) (with_search initial_filters "EUR")
    [mkTrade "1" "EUR/USD" "H1" Buy 1 None 1 1 "" None None 0 None;
     mkTrade "2" "GBP/USD" "H1" Buy 1 None 1 1 "" None None 0 None]
  = filteredTrades (fun _ => 0%Z) (with_search initial_filters "eur")
    [mkTrade "1" "EUR/USD" "H1" Buy 1 None 1 1 "" None None 0 None;
     mkTrade "2" "GBP/USD" "H1" Buy 1 None 1 1 "" None None 0 None].
Proof.
  split; [reflexivity|].
  apply filteredTrades_search_case_insensitive. reflexivity.
Defined.

(** ** Column headers: [requestSort] and [getSortIndicator] *)

(** Clicking a header: the column sorted ascending turns descending, any
    other state (descending, another column, no sort) gives ascending on
    the clicked column.  Afterwards the clicked column shows an arrow of
    its direction and every other column the neutral icon. *)
Theorem requestSort_indicator :
  (forall k, requestSort (Some (mkSortConfig k Asc)) k = mkSortConfig k Desc)
  /\ (forall k, requestSort (Some (mkSortConfig k Desc)) k = mkSortConfig k Asc)
  /\ (forall k k' d, k' <> k -> requestSort (Some (mkSortConfig k' d)) k = mkSortConfig k Asc)
  /\ (forall k, requestSort None k = mkSortConfig k Asc)
  /\ (forall cfg k, getSortIndicator (Some (requestSort cfg k)) k =
        match direction (requestSort cfg k) with Asc => ArrowUp | Desc => ArrowDown end)
  /\ (forall cfg k k', k' <> k -> getSortIndicator (Some (requestSort cfg k)) k' = ArrowUpDown).
Proof.
  split; [|split; [|split; [|split; [|split]]]].
  - intros k; destruct k; reflexivity.
  - intros k; destruct k; reflexivity.
  - intros k k' d H; destruct k, k'; try (exfalso; apply H; reflexivity);
      reflexivity.
  - reflexivity.
  - intros cfg k. unfold getSortIndicator.
    replace (TradeKey_eqb (key (requestSort cfg k)) k) with true by (destruct k; reflexivity).
    reflexivity.
  - intros cfg k k' H. unfold getSortIndicator.
    replace (TradeKey_eqb (key (requestSort cfg k)) k') with false
      by (simpl; destruct k, k'; try (exfalso; apply H; reflexivity); reflexivity).
    reflexivity.
Qed.

(** ** TradeJournal: the recorded P/L and the R:R warning *)

(** With both prices entered (positive numbers) a P/L is recorded, and it
    is a gain exactly when the price moved in the trade's direction: up for
    a Buy, down for a Sell. *)
Theorem submit_profit_loss_sign (ty : TradeType) (e x : Q) :
  0 < e -> 0 < x ->
  exists p, submit_profit_loss ty (Some e) (Some x) = Some p
            /\ (0 < p <-> match ty with Buy => e < x | Sell => x < e end)
            /\ (p < 0 <-> match ty with Buy => x < e | Sell => e < x end).
Proof.
  intros He Hx. unfold submit_profit_loss.
  rewrite !js_truthy_pos by assumption. simpl.
  eexists. split; [reflexivity|].
  destruct ty; split; split; intros H; lra.
Qed.

Lemma submit_profit_loss_sign_witness :
  0 < 1 # 1 /\ 0 < 11 # 10 /\
  exists p, submit_profit_loss Sell (Some 1) (Some (11 # 10)) = Some p
            /\ (0 < p <-> (11 # 10) < 1) /\ (p < 0 <-> 1 < (11 # 10)).
Proof.
  split; [reflexivity | split; [reflexivity|]].
  apply (submit_profit_loss_sign Sell 1 (11 # 10)); reflexivity.
Defined.

(** A trade saved without an exit price (still open), or with entry or
    exit [0], gets a [null] P/L. *)
Theorem submit_profit_loss_open (ty : TradeType) (entry exit : option Q) :
  absent_or_zero entry \/ absent_or_zero exit ->
  submit_profit_loss ty entry exit = None.
Proof.
  intros [H|H]; unfold submit_profit_loss; rewrite (js_truthy_absent _ H);
    [reflexivity | now rewrite andb_false_r].
Qed.

Lemma submit_profit_loss_open_witness :
  submit_profit_loss Buy (Some (12 # 10)) None = None.
Proof.
  apply submit_profit_loss_open. right. left. reflexivity.
Defined.

(** [parseFloat(x.toFixed(2)) < 1] exactly when [x < 0.995]. *)
Lemma fixed_lt_1 (q : Q) :
  Qltb (parseFloat_fixed (toFixed2 q)) 1 = true <-> q < 199 # 200.
Proof.
  rewrite Qltb_iff. unfold toFixed2.
  destruct (Qltb q 0) eqn:E.
  - apply Qltb_iff in E. cbn [parseFloat_fixed fx_neg fx_hundredths].
    set (m := inject_Z (Z.of_N (Z.to_N (Qfloor (- q * 100 + (1 # 2))))) / 100).
    assert (Hm : 0 <= m).
    { unfold m. apply Qle_shift_div_l; [reflexivity|]. rewrite Qmult_0_l.
      change 0 with (inject_Z 0). rewrite <- Zle_Qle. lia. }
    split; intros; lra.
  - apply Qltb_false in E. cbn [parseFloat_fixed fx_neg fx_hundredths].
    assert (Hn : (0 <= Qfloor (q * 100 + (1 # 2)))%Z).
    { apply Qfloor_nonneg. lra. }
    rewrite Z2N.id by exact Hn.
    set (n := Qfloor (q * 100 + (1 # 2))) in *.
    pose proof (Qfloor_le (q * 100 + (1 # 2))) as Hle.
    pose proof (Qlt_floor (q * 100 + (1 # 2))) as Hlt.
    fold n in Hle, Hlt.
    rewrite inject_Z_plus in Hlt. change (inject_Z 1) with 1 in Hlt.
    unfold Qdiv. change (/ 100) with (1 # 100).
    split; intros H.
    + assert (Hz : (n < 100)%Z).
      { rewrite Zlt_Qlt. change (inject_Z 100) with 100. lra. }
      assert (Hz' : (n + 1 <= 100)%Z) by lia.
      rewrite Zle_Qle, inject_Z_plus in Hz'. change (inject_Z 1) with 1 in Hz'.
      change (inject_Z 100) with 100 in Hz'. lra.
    + lra.
Qed.

(** The "Low R:R ratio" warning under the form, for positive prices: it
    shows when the stop is not on the risk side of the entry or when the
    ratio is below 0.99, and it does not show when the ratio is at least 1.
    (Between the two, the outcome depends on where [toFixed(2)] rounds.) *)
Theorem lowRRWarning_thresholds (ty : TradeType) (entry stop target : Q) :
  0 < entry -> 0 < stop -> 0 < target ->
  (risk_of ty entry stop target <= 0
   \/ reward_of ty entry stop target / risk_of ty entry stop target < 99 # 100 ->
   lowRRWarning (mkWatch (Some stop) (Some target) (Some entry) ty) = true)
  /\ (0 < risk_of ty entry stop target ->
      1 <= reward_of ty entry stop target / risk_of ty entry stop target ->
      lowRRWarning (mkWatch (Some stop) (Some target) (Some entry) ty) = false).
Proof.
  intros He Hs Ht. unfold lowRRWarning.
  rewrite calculateRiskReward_pos by assumption.
  destruct (Qle_bool (risk_of ty entry stop target) 0) eqn:E.
  - apply Qle_bool_iff in E. split; [intros _; reflexivity|].
    intros H. exfalso. lra.
  - assert (Hr : ~ risk_of ty entry stop target <= 0)
      by (intros H; apply Qle_bool_iff in H; congruence).
    cbn [parseFloat_rr]. split.
    + intros [H|H]; [contradiction|]. apply fixed_lt_1. lra.
    + intros _ H. destruct (Qltb (parseFloat_fixed _) 1) eqn:F; [|reflexivity].
      apply fixed_lt_1 in F. lra.
Qed.

Lemma lowRRWarning_thresholds_witness :
  lowRRWarning (mkWatch (Some 95) (Some 110) (Some 100) Buy) = false
  /\ lowRRWarning (mkWatch (Some 95) (Some 104) (Some 100) Buy) = true.
Proof.
  split.
  - apply (proj2 (lowRRWarning_thresholds Buy 100 95 110 eq_refl eq_refl eq_refl)).
    + reflexivity.
    + vm_compute. intros H. discriminate H.
  - apply (proj1 (lowRRWarning_thresholds Buy 100 95 104 eq_refl eq_refl eq_refl)).
    right. reflexivity.
Defined.

(** ** Analytics: the risk:reward histogram *)

Lemma rr_buckets_one (r : Q) :
  (b2n (rr_bucket_spec 0 r) + b2n (rr_bucket_spec 1 r) + b2n (rr_bucket_spec 2 r)
   + b2n (rr_bucket_spec 3 r) + b2n (rr_bucket_spec 4 r) = 1)%nat.
Proof.
  unfold rr_bucket_spec. rewrite !Qle_bool_as_Qltb.
  destruct (Qltb r 3) eqn:E4; destruct (Qltb r 2) eqn:E3;
    destruct (Qltb r (3 # 2)) eqn:E2; destruct (Qltb r 1) eqn:E1;
    simpl; try reflexivity.
  all: exfalso.
  all: first
    [ assert (Qltb r (3 # 2) = true) by (eapply Qltb_mono; [eassumption | discriminate]); congruence
    | assert (Qltb r 2 = true) by (eapply Qltb_mono; [eassumption | discriminate]); congruence
    | assert (Qltb r 3 = true) by (eapply Qltb_mono; [eassumption | discriminate]); congruence ].
Qed.

(** Every trade lands in exactly one bar: the bar heights add up to the
    number of trades shown. *)
Theorem riskRewardRanges_total (l : list Trade) :
  list_sum (riskRewardRanges l) = length l.
Proof.
  unfold riskRewardRanges, riskRewardRanges_init. rewrite riskRewardRanges_fold.
  simpl. rewrite Nat.add_0_r.
  induction l as [|t r IH]; [reflexivity|].
  pose proof (rr_buckets_one (risk_reward_ratio t)) as H1.
  unfold count_rr, b2n in *. cbn [filter].
  destruct (rr_bucket_spec 0 (risk_reward_ratio t)), (rr_bucket_spec 1 (risk_reward_ratio t)),
    (rr_bucket_spec 2 (risk_reward_ratio t)), (rr_bucket_spec 3 (risk_reward_ratio t)),
    (rr_bucket_spec 4 (risk_reward_ratio t)); cbn [length] in *; lia.
Qed.

(** ** Analytics: summary metrics *)

Lemma qsum_cons {A} (f : A -> Q) (x : A) (l : list A) : qsum f (x :: l) = f x + qsum f l.
Proof. reflexivity. Qed.

Lemma qsum_app {A} (f : A -> Q) (l1 l2 : list A) :
  qsum f (l1 ++ l2) == qsum f l1 + qsum f l2.
Proof.
  induction l1 as [|x r IH]; simpl app; rewrite ?qsum_cons.
  - change (qsum f []) with 0. ring.
  - rewrite IH. ring.
Qed.

Lemma qsum_perm {A} (f : A -> Q) (l l' : list A) :
  Permutation l l' -> qsum f l == qsum f l'.
Proof.
  induction 1; rewrite ?qsum_cons.
  - reflexivity.
  - rewrite IHPermutation. reflexivity.
  - ring.
  - rewrite IHPermutation1. assumption.
Qed.

Lemma fold_left_qsum {A} (f : A -> Q) (l : list A) (a : Q) :
  fold_left (fun s x => s + f x) l a == a + qsum f l.
Proof.
  revert a. induction l as [|x r IH]; intros a; simpl fold_left; rewrite ?qsum_cons.
  - change (qsum f []) with 0. ring.
  - rewrite IH. ring.
Qed.

Lemma totalProfitLoss_qsum (l : list Trade) :
  totalProfitLoss l == qsum (fun t => or0 (profit_loss t)) l.
Proof.
  unfold totalProfitLoss. rewrite (fold_left_qsum (fun t => or0 (profit_loss t))). ring.
Qed.


Lemma Q_of_nat_pos (n : nat) : (0 < n)%nat -> 0 < Q_of_nat n.
Proof. intros H. unfold Q_of_nat. change 0 with (inject_Z 0). rewrite <- Zlt_Qlt. lia. Qed.

Lemma Q_of_nat_S (n : nat) : Q_of_nat (S n) == Q_of_nat n + 1.
Proof. unfold Q_of_nat. rewrite Nat2Z.inj_succ, <- Z.add_1_r, inject_Z_plus. reflexivity. Qed.





Lemma qsum_bounds (f : Trade -> Q) (lo hi : Q) (l : list Trade) :
  (forall t, In t l -> lo <= f t <= hi) ->
  Q_of_nat (length l) * lo <= qsum f l <= Q_of_nat (length l) * hi.
Proof.
  induction l as [|t r IH]; intros H.
  - change (qsum f []) with 0. change (Q_of_nat (length [])) with 0.
    rewrite !Qmult_0_l. split; apply Qle_refl.
  - rewrite qsum_cons. cbn [length]. rewrite Q_of_nat_S.
    destruct (H t (or_introl eq_refl)) as [H1 H2].
    destruct IH as [H3 H4]; [intros z Hz; apply H; now right|].
    split; lra.
Qed.

(** The average R:R lies between the smallest and the largest ratio of the
    trades shown. *)
Theorem avgRiskReward_bounds (l : list Trade) (lo hi : Q) :
  l <> [] -> (forall t, In t l -> lo <= risk_reward_ratio t <= hi) ->
  lo <= avgRiskReward l /\ avgRiskReward l <= hi.
Proof.
  intros Hne H. unfold avgRiskReward.
  assert (Hn : (0 < length l)%nat) by (destruct l; [congruence | simpl; lia]).
  apply Nat.ltb_lt in Hn as Hb. rewrite Hb.
  pose proof (Q_of_nat_pos _ Hn) as Hpos.
  rewrite (fold_left_qsum risk_reward_ratio), Qplus_0_l.
  destruct (qsum_bounds risk_reward_ratio lo hi l H) as [H1 H2].
  split.
  - apply Qle_shift_div_l; [exact Hpos|]. rewrite Qmult_comm. exact H1.
  - apply Qle_shift_div_r; [exact Hpos|]. rewrite Qmult_comm. exact H2.
Qed.

Lemma avgRiskReward_bounds_witness :
  1 <= avgRiskReward [trade_rr 1; trade_rr 2; trade_rr 3]
  /\ avgRiskReward [trade_rr 1; trade_rr 2; trade_rr 3] <= 3.
Proof.
  apply avgRiskReward_bounds; [discriminate|].
  intros t Ht. simpl in Ht.
  destruct Ht as [<- | [<- | [<- | []]]]; simpl; split; discriminate.
Defined.

(** ** Analytics: grouping by pair and by timeframe *)

Lemma push_group_lookup (k k0 : string) (t : Trade) (acc : list (string * list Trade)) :
  lookup_group k (push_group k0 t acc) =
  if String.eqb k k0
  then Some (match lookup_group k acc with Some g => g ++ [t] | None => [t] end)
  else lookup_group k acc.
Proof.
  induction acc as [|[k' g] r IH]; simpl.
  - destruct (String.eqb k k0); reflexivity.
  - destruct (String.eqb_spec k0 k') as [->|Hne]; simpl.
    + destruct (String.eqb k k'); reflexivity.
    + rewrite IH. destruct (String.eqb_spec k k') as [->|Hne2]; [|reflexivity].
      destruct (String.eqb_spec k' k0); [congruence | reflexivity].
Qed.

Lemma push_group_concat (k : string) (t : Trade) (acc : list (string * list Trade)) :
  Permutation (concat (map snd (push_group k t acc))) (concat (map snd acc) ++ [t]).
Proof.
  induction acc as [|[k' g] r IH]; simpl; [reflexivity|].
  destruct (String.eqb k k'); simpl.
  - rewrite <- !app_assoc. apply Permutation_app_head. apply Permutation_app_comm.
  - rewrite <- app_assoc. apply Permutation_app_head. exact IH.
Qed.

Lemma push_group_keys (k : string) (t : Trade) (acc : list (string * list Trade)) :
  map fst (push_group k t acc) =
  match lookup_group k acc with Some _ => map fst acc | None => map fst acc ++ [k] end.
Proof.
  induction acc as [|[k' g] r IH]; simpl; [reflexivity|].
  destruct (String.eqb k k'); simpl; [reflexivity|].
  rewrite IH. destruct (lookup_group k r); reflexivity.
Qed.

Lemma lookup_none_notin (k : string) (acc : list (string * list Trade)) :
  lookup_group k acc = None -> ~ In k (map fst acc).
Proof.
  induction acc as [|[k' g] r IH]; simpl; [auto|].
  destruct (String.eqb_spec k k') as [->|Hne]; [discriminate|].
  intros H [H'|H']; [congruence | exact (IH H H')].
Qed.

Lemma lookup_some_in (k : string) (g : list Trade) (acc : list (string * list Trade)) :
  lookup_group k acc = Some g -> In (k, g) acc.
Proof.
  induction acc as [|[k' g'] r IH]; simpl; [discriminate|].
  destruct (String.eqb_spec k k') as [->|Hne]; intros H.
  - left. congruence.
  - right. exact (IH H).
Qed.

Lemma lookup_in_nodup (k : string) (g : list Trade) (acc : list (string * list Trade)) :
  NoDup (map fst acc) -> In (k, g) acc -> lookup_group k acc = Some g.
Proof.
  induction acc as [|[k' g'] r IH]; simpl; [intros _ []|].
  intros Hnd [Heq|Hin]; inversion Hnd as [|? ? Hnot Hnd']; subst.
  - inversion Heq; subst. rewrite String.eqb_refl. reflexivity.
  - destruct (String.eqb_spec k k') as [->|Hne].
    + exfalso. apply Hnot. apply (in_map fst) in Hin. exact Hin.
    + apply IH; assumption.
Qed.

Lemma NoDup_app_single {A} (l : list A) (x : A) :
  NoDup l -> ~ In x l -> NoDup (l ++ [x]).
Proof.
  intros H Hx. apply Permutation_NoDup with (x :: l);
    [apply Permutation_cons_append | constructor; assumption].
Qed.

Section GroupByFacts.

Variable f : Trade -> string.

Lemma groupBy_gen (pre r : list Trade) (acc : list (string * list Trade)) :
  NoDup (map fst acc) ->
  (forall k, lookup_group k acc = opt_nonempty (filter (fun t => String.eqb (f t) k) pre)) ->
  Permutation (concat (map snd acc)) pre ->
  let res := fold_left (fun acc trade => push_group (f trade) trade acc) r acc in
  NoDup (map fst res)
  /\ (forall k, lookup_group k res
                = opt_nonempty (filter (fun t => String.eqb (f t) k) (pre ++ r)))
  /\ Permutation (concat (map snd res)) (pre ++ r).
Proof.
  revert pre acc. induction r as [|t r IH]; intros pre acc Ha Hb Hc; simpl.
  - rewrite app_nil_r. auto.
  - replace (pre ++ t :: r) with ((pre ++ [t]) ++ r) by (rewrite <- app_assoc; reflexivity).
    apply IH.
    + rewrite push_group_keys. destruct (lookup_group (f t) acc) eqn:E; [exact Ha|].
      apply NoDup_app_single; [exact Ha | apply lookup_none_notin; exact E].
    + intros k. rewrite push_group_lookup, filter_app. simpl filter.
      destruct (String.eqb_spec k (f t)) as [->|Hne].
      * rewrite String.eqb_refl, Hb.
        destruct (filter (fun t0 => String.eqb (f t0) (f t)) pre); reflexivity.
      * destruct (String.eqb_spec (f t) k) as [He|_]; [congruence|].
        rewrite app_nil_r. apply Hb.
    + eapply Permutation_trans; [apply push_group_concat|].
      apply Permutation_app_tail. exact Hc.
Qed.

Lemma groupBy_spec (l : list Trade) :
  NoDup (map fst (groupBy f l))
  /\ (forall k, lookup_group k (groupBy f l)
                = opt_nonempty (filter (fun t => String.eqb (f t) k) l))
  /\ Permutation (concat (map snd (groupBy f l))) l.
Proof.
  apply (groupBy_gen [] l []); [constructor | reflexivity | reflexivity].
Qed.

Lemma groupBy_entry (l : list Trade) (k : string) (g : list Trade) :
  In (k, g) (groupBy f l) ->
  g = filter (fun t => String.eqb (f t) k) l /\ g <> [].
Proof.
  intros H. destruct (groupBy_spec l) as [Ha [Hb _]].
  pose proof (lookup_in_nodup k g _ Ha H) as E. rewrite Hb in E.
  destruct (filter (fun t => String.eqb (f t) k) l) eqn:F; simpl in E; [discriminate|].
  inversion E. split; [reflexivity | discriminate].
Qed.

Lemma groupBy_covers (l : list Trade) (t : Trade) :
  In t l -> exists g, In (f t, g) (groupBy f l).
Proof.
  intros Ht. destruct (groupBy_spec l) as [_ [Hb _]].
  specialize (Hb (f t)).
  assert (Hin : In t (filter (fun t0 => String.eqb (f t0) (f t)) l))
    by (apply filter_In; split; [exact Ht | apply String.eqb_refl]).
  destruct (filter (fun t0 => String.eqb (f t0) (f t)) l) as [|x r] eqn:F; [destruct Hin|].
  exists (x :: r). apply lookup_some_in. exact Hb.
Qed.

End GroupByFacts.

(** Profit by pair: one row per pair name (no duplicates), each row
    holding the trades of that pair (at least one) and their summed P/L,
    and every pair that occurs among the trades has a row. *)
Theorem pnlByPair_rows (l : list Trade) :
  NoDup (map pp_pair (pnlByPair l))
  /\ Forall (fun e =>
       let g := filter (fun t => String.eqb (pair t) (pp_pair e)) l in
       pp_count e = length g /\ (0 < pp_count e)%nat /\ pp_pnl e = totalProfitLoss g)
     (pnlByPair l)
  /\ Forall (fun t => exists e, In e (pnlByPair l) /\ pp_pair e = pair t) l.
Proof.
  unfold pnlByPair, tradesByPair.
  split; [|split].
  - rewrite map_map.
    replace (map _ (groupBy pair l)) with (map fst (groupBy pair l))
      by (apply map_ext; intros [p g]; reflexivity).
    apply groupBy_spec.
  - apply Forall_forall. intros e He. apply in_map_iff in He as [[p g] [<- Hin]].
    cbn [pp_pair pp_count pp_pnl].
    destruct (groupBy_entry pair l p g Hin) as [-> Hne].
    split; [reflexivity | split; [|reflexivity]].
    destruct (filter _ l); [congruence | simpl; lia].
  - apply Forall_forall. intros t Ht.
    destruct (groupBy_covers pair l t Ht) as [g Hg].
    exists (mkPairPnl (pair t) (totalProfitLoss g) (length g)). split; [|reflexivity].
    apply in_map_iff. exists (pair t, g). split; [reflexivity | exact Hg].
Qed.

(** The rows of the profit-by-pair chart add up to the totals of the page:
    their P/L sum is the total P/L and their trade counts sum to the number
    of trades. *)
Theorem pnlByPair_totals (l : list Trade) :
  qsum pp_pnl (pnlByPair l) == totalProfitLoss l
  /\ list_sum (map pp_count (pnlByPair l)) = length l.
Proof.
  unfold pnlByPair, tradesByPair.
  destruct (groupBy_spec pair l) as [_ [_ Hc]].
  split.
  - rewrite totalProfitLoss_qsum, <- (qsum_perm _ _ _ Hc).
    clear Hc. induction (groupBy pair l) as [|[p g] r IH]; [reflexivity|].
    cbn [map concat]. rewrite qsum_cons, qsum_app, IH. cbn [pp_pnl].
    rewrite totalProfitLoss_qsum. reflexivity.
  - rewrite <- (Permutation_length Hc), length_concat, !map_map.
    f_equal. apply map_ext. intros [p g]. reflexivity.
Qed.


(** ** Analytics: the cumulative P/L chart *)

Lemma chrono_lt_irrefl (getTime : string -> Z) (a : Trade) : chrono_lt getTime a a = false.
Proof. unfold chrono_lt. apply Z.ltb_ge. lia. Qed.

Lemma chrono_lt_trans (getTime : string -> Z) (a b c : Trade) :
  chrono_lt getTime a b = true -> chrono_lt getTime b c = true ->
  chrono_lt getTime a c = true.
Proof. unfold chrono_lt. rewrite !Z.ltb_lt. lia. Qed.

Lemma chrono_lt_conn (getTime : string -> Z) (a b c : Trade) :
  chrono_lt getTime a c = true ->
  chrono_lt getTime a b = true \/ chrono_lt getTime b c = true.
Proof.
  unfold chrono_lt. rewrite !Z.ltb_lt. intros H.
  destruct (Z.ltb_spec (getTime (entry_date a) - getTime (entry_date b)) 0); [now left|].
  right. lia.
Qed.

(** The chart's copy of the trades is a reordering of them, by entry time
    ascending, and trades entered at the same instant keep the order they
    had (the comparator [getTime(a) - getTime(b)] is a strict weak order and
    the sort is stable). *)
Theorem chronological_order (getTime : string -> Z) (l : list Trade) :
  Permutation (chronological getTime l) l
  /\ StronglySorted (fun a b => (getTime (entry_date a) <= getTime (entry_date b))%Z)
       (chronological getTime l)
  /\ (forall z, filter (fun t => Z.eqb (getTime (entry_date t)) z) (chronological getTime l)
                = filter (fun t => Z.eqb (getTime (entry_date t)) z) l).
Proof.
  split; [|split].
  - apply array_sort_perm.
  - eapply StronglySorted_weaken_in; [|apply array_sort_sorted].
    + intros a b _ _. unfold not_before, chrono_lt. intros H. apply Z.ltb_ge in H. lia.
    + apply chrono_lt_irrefl.
    + apply chrono_lt_trans.
  - intros z. apply array_sort_stable.
    + apply chrono_lt_irrefl.
    + apply chrono_lt_trans.
    + apply chrono_lt_conn.
    + intros a b Ha Hb. apply Z.eqb_eq in Ha, Hb. unfold chrono_lt. apply Z.ltb_ge. lia.
Qed.

Lemma cumulative_gen (pre r : list Trade) (acc : list Q) :
  length acc = length pre ->
  (forall j, (j < length pre)%nat -> nth j acc 0 = totalProfitLoss (firstn (S j) pre)) ->
  last acc 0 = totalProfitLoss pre ->
  let res := reduce_idx cumulative_step r acc (length pre) in
  length res = length (pre ++ r)
  /\ (forall j, (j < length (pre ++ r))%nat ->
                nth j res 0 = totalProfitLoss (firstn (S j) (pre ++ r)))
  /\ last res 0 = totalProfitLoss (pre ++ r).
Proof.
  revert pre acc. induction r as [|t r IH]; intros pre acc Hlen Hnth Hlast; simpl.
  - rewrite app_nil_r. auto.
  - replace (pre ++ t :: r) with ((pre ++ [t]) ++ r) by (rewrite <- app_assoc; reflexivity).
    assert (Hprev : match length pre with O => 0 | S i => nth i acc 0 end = totalProfitLoss pre).
    { destruct (length pre) as [|i] eqn:E.
      - destruct pre; [reflexivity | discriminate].
      - rewrite Hnth by lia. rewrite <- E, firstn_all. reflexivity. }
    assert (Htot : totalProfitLoss (pre ++ [t]) = totalProfitLoss pre + or0 (profit_loss t))
      by (unfold totalProfitLoss; rewrite fold_left_app; reflexivity).
    replace (S (length pre)) with (length (pre ++ [t])) by (rewrite length_app; simpl; lia).
    apply IH; unfold cumulative_step; rewrite Hprev, <- Htot.
    + rewrite !length_app. simpl. lia.
    + intros j Hj. rewrite length_app in Hj. simpl in Hj.
      destruct (Nat.eq_dec j (length pre)) as [->|Hne].
      * rewrite app_nth2 by lia. rewrite Hlen, Nat.sub_diag.
        rewrite firstn_all2 by (rewrite length_app; simpl; lia). reflexivity.
      * rewrite app_nth1 by lia. rewrite Hnth by lia.
        rewrite firstn_app.
        replace (S j - length pre)%nat with O by lia. rewrite firstn_O, app_nil_r. reflexivity.
    + apply last_last.
Qed.

(** The cumulative P/L series has one point per trade, in entry-time order;
    point [i] is the P/L summed over the first [i + 1] trades of that order,
    and the last point equals the total P/L of the page. *)
Theorem cumulativePnl_spec (getTime : string -> Z) (l : list Trade) :
  length (cumulativePnl getTime l) = length l
  /\ (forall i, (i < length l)%nat ->
        nth i (cumulativePnl getTime l) 0
        = totalProfitLoss (firstn (S i) (chronological getTime l)))
  /\ last (cumulativePnl getTime l) 0 == totalProfitLoss l.
Proof.
  pose proof (Permutation_length (array_sort_perm Trade (chrono_lt getTime) l)) as Hperm.
  fold (chronological getTime l) in Hperm.
  destruct (cumulative_gen [] (chronological getTime l) [])
    as [H1 [H2 H3]]; [reflexivity | simpl; lia | reflexivity |].
  unfold cumulativePnl. simpl in H1, H2, H3.
  split; [|split].
  - rewrite H1. exact Hperm.
  - intros i Hi. apply H2. lia.
  - rewrite H3, !totalProfitLoss_qsum. apply qsum_perm. apply array_sort_perm.
Qed.

Lemma cumulativePnl_spec_witness :
  nth 1 (cumulativePnl (fun s => if String.eqb s "b" then 1%Z else 2%Z)
           [mkTrade "1" "" "" Buy 1 None 1 1 "a" None (Some 5) 0 None;
            mkTrade "2" "" "" Buy 1 None 1 1 "b" None (Some (-2)) 0 None]) 0
  = totalProfitLoss (firstn 2 (chronological (fun s => if String.eqb s "b" then 1%Z else 2%Z)
           [mkTrade "1" "" "" Buy 1 None 1 1 "a" None (Some 5) 0 None;
            mkTrade "2" "" "" Buy 1 None 1 1 "b" None (Some (-2)) 0 None])).
Proof.
  apply (cumulativePnl_spec (fun s => if String.eqb s "b" then 1%Z else 2%Z)). simpl. lia.
Defined.
